(** * The Vault key store of KES (package [internal/vault])

    A shallow embedding of [internal/vault/vault.go].  The store talks to a
    Hashicorp Vault server through the [vaultapi] client, keeps two fields
    ([client] and [sealed]) that are shared between the caller and two
    goroutines, and runs two loops that only stop when their context is
    cancelled.  Each method is therefore an interaction tree: every access to
    the shared fields, every request to Vault, every log line and every wait
    is an event answered by the environment, and the [for] loops are
    [ITree.iter]. *)

From Stdlib Require Import ZArith String List Lia.
From stdpp Require Import base gmap strings.
From ITree Require Import ITree.
Import ListNotations.

Local Open Scope string_scope.
Local Open Scope list_scope.
Local Open Scope Z_scope.

Declare Scope go_scope.
Delimit Scope go_scope with go.
Notation "x <- c1 ;; c2" := (ITree.bind c1 (fun x => c2))
  (at level 100, c1 at next level, right associativity) : go_scope.
Notation "c1 ;; c2" := (ITree.bind c1 (fun _ => c2))
  (at level 100, right associativity) : go_scope.
Local Open Scope go_scope.

(** ** Data *)

(** [time.Duration]: a count of nanoseconds.  The code only compares
    durations with zero, halves them and uses constants, so no [int64]
    wrap-around can occur and plain [Z] is exact. *)
Definition Duration := Z.
Definition Second : Duration := 1000000000.

(** Go [error] values.  [ErrorString] is what [errors.New] and [fmt.Errorf]
    build; [KesError] is what [kes.NewError] builds (an HTTP status code and
    a message).  Errors of the Vault client are values of this type too. *)
Inductive error :=
| ErrorString (msg : string)
| KesError (code : Z) (msg : string).

(** The [Error()] method, which is also what [%v] and [Println] print. *)
Definition Error (e : error) : string :=
  match e with
  | ErrorString msg => msg
  | KesError _ msg => msg
  end.

(** A value of type [interface{}] inside a decoded Vault response. *)
Inductive value :=
| VNil
| VString (s : string)
| VNumber (n : Z)
| VBool (b : bool).

(** The parts of package [github.com/hashicorp/vault/api] the store uses. *)
Module vaultapi.
(** [*vaultapi.Secret]: the data of the entry, and what its methods
    [TokenID], [TokenTTL] and [TokenIsRenewable] return. *)
Record Secret := {
  Data : gmap string value;
  TokenID : string * option error;
  TokenTTL : Duration * option error;
  TokenIsRenewable : bool * option error
}.
Record HealthResponse := { Sealed : bool }.
Record TLSConfig := {
  CACert : string;
  CAPath : string;
  ClientCert : string;
  ClientKey : string
}.
(** [*vaultapi.Client] is an opaque handle. *)
Definition Client := nat.
End vaultapi.

(** [os.FileInfo], of which only [IsDir] is used. *)
Record FileInfo := { IsDir : bool }.

(** [*log.Logger] is an opaque handle. *)
Definition Logger := nat.

Record AppRole := {
  ID : string;
  Secret : string;
  Retry : Duration
}.

(** The exported fields of [Store].  The two unexported fields, [client] and
    [sealed], are written by [Authenticate] and by the goroutines while other
    callers read them; they are accessed through events below. *)
Module Store.
Record t := {
  Addr : string;
  Location : string;
  AppRole : AppRole;
  StatusPingAfter : Duration;
  ErrorLog : option Logger;
  ClientKeyPath : string;
  ClientCertPath : string;
  CAPath : string;
  Namespace : string
}.
End Store.

(** ** Events *)

(** What a [select] over [ctx.Done()] and the channel of a timer yields. *)
Inductive wake := Done | Fired.

(** The two goroutines [Authenticate] starts, with their arguments. *)
Inductive goroutine :=
| go_checkStatus (delay : Duration)
| go_renewAuthToken (login : AppRole) (ttl : Duration).

Inductive op :=
(* the unexported fields of the store *)
| LoadClient
| StoreClient (c : option vaultapi.Client)
| LoadSealed
| StoreSealed (b : bool)
(* building and configuring the client *)
| Stat (path : string)
| NewClient (addr : string) (tls : vaultapi.TLSConfig)
| SetNamespace (ns : string)
| SetToken (tok : string)
(* requests to the Vault server *)
| SysHealth
| LogicalRead (path : string)
| LogicalWrite (path : string) (data : gmap string value)
| LogicalDelete (path : string)
| RenewSelf (increment : Z)
(* the error log: [None] is the standard logger of package [log] *)
| Println (l : option Logger) (line : string)
| Printf (l : option Logger) (line : string)
(* timers, the context and goroutines *)
| NewTimer (d : Duration)
| TimerReset (d : Duration)
| TimerStop
| Select
| Go (g : goroutine)
(* a run-time panic (nil dereference) *)
| Panic.

(** The Go result of each operation; a pair is a [(value, err)] result whose
    components may each be [nil]. *)
Definition resp (o : op) : Type :=
  match o with
  | LoadClient => option vaultapi.Client
  | LoadSealed => bool
  | Stat _ => (option FileInfo * option error)%type
  | NewClient _ _ => (option vaultapi.Client * option error)%type
  | SysHealth => (option vaultapi.HealthResponse * option error)%type
  | LogicalRead _ | LogicalWrite _ _ | LogicalDelete _ | RenewSelf _ =>
      (option vaultapi.Secret * option error)%type
  | Select => wake
  | Panic => Empty_set
  | StoreClient _ | StoreSealed _ | SetNamespace _ | SetToken _
  | Println _ _ | Printf _ _ | NewTimer _ | TimerReset _ | TimerStop
  | Go _ => unit
  end.

Variant vaultE : Type -> Type :=
| Call (o : op) : vaultE (resp o).

Definition call (o : op) : itree vaultE (resp o) := ITree.trigger (Call o).

Definition panic {R : Type} : itree vaultE R :=
  x <- call Panic ;; match x : Empty_set with end.

(** How a loop body or a block ends: it runs on ([Proceeds]), it starts the
    next iteration of the enclosing loop ([Continues]), or the function
    returns ([Returns]). *)
Inductive flow (A : Type) :=
| Proceeds (a : A)
| Continues
| Returns.
Arguments Proceeds {A} a.
Arguments Continues {A}.
Arguments Returns {A}.

(** ** The store *)

Section Vault.

(** [kes.ErrKeyNotFound] and [kes.ErrKeyExists] are declared in package
    [kes]; [int_seconds ttl] is [int(ttl.Seconds())], a conversion through
    [float64]. *)
Variable ErrKeyNotFound ErrKeyExists : error.
Variable int_seconds : Duration -> Z.

Definition errSealed : error := KesError 403 "key store is sealed".

Definition errNoConnection : error :=
  ErrorString "vault: no connection to vault server".

Definition log (s : Store.t) (v : string) : itree vaultE unit :=
  call (Println (Store.ErrorLog s) v).

Definition logf (s : Store.t) (line : string) : itree vaultE unit :=
  call (Printf (Store.ErrorLog s) line).

(** [fmt.Sprintf("/kv/%s/%s", s.Location, key)] *)
Definition location (s : Store.t) (key : string) : string :=
  "/kv/" +:+ Store.Location s +:+ "/" +:+ key.

Definition Get (s : Store.t) (key : string)
  : itree vaultE (string * option error) :=
  client <- call LoadClient ;;
  match client with
  | None =>
      log s (Error errNoConnection) ;;
      Ret ("", Some errNoConnection)
  | Some _ =>
      sealed <- call LoadSealed ;;
      if sealed : bool then Ret ("", Some errSealed) else
      r <- call (LogicalRead (location s key)) ;;
      match r with
      | (Some entry, None) =>
          match vaultapi.Data entry !! key with
          | None | Some VNil =>
              logf s ("vault: failed to read '" +:+ location s key
                      +:+ "': entry exists but no secret key is present") ;;
              Ret ("", Some (ErrorString
                               "vault: K/V entry does not contain any value"))
          | Some (VString value) => Ret (value, None)
          | Some _ =>
              logf s ("vault: failed to read '" +:+ location s key
                      +:+ "': invalid K/V format") ;;
              Ret ("", Some (ErrorString "vault: invalid K/V entry format"))
          end
      | (None, None) => Ret ("", Some ErrKeyNotFound)
      | (_, Some err) =>
          logf s ("vault: failed to read '" +:+ location s key +:+ "': "
                  +:+ Error err) ;;
          Ret ("", Some err)
      end
  end.

Definition Create (s : Store.t) (key value : string)
  : itree vaultE (option error) :=
  client <- call LoadClient ;;
  match client with
  | None =>
      log s (Error errNoConnection) ;;
      Ret (Some errNoConnection)
  | Some _ =>
      sealed <- call LoadSealed ;;
      if sealed : bool then Ret (Some errSealed) else
      r <- call (LogicalRead (location s key)) ;;
      match r with
      | (Some _, None) => Ret (Some ErrKeyExists)
      | (_, Some err) =>
          logf s ("vault: failed to create '" +:+ location s key +:+ "': "
                  +:+ Error err) ;;
          Ret (Some err)
      | (None, None) =>
          w <- call (LogicalWrite (location s key) {[ key := VString value ]}) ;;
          match w with
          | (_, Some err) =>
              logf s ("vault: failed to create '" +:+ location s key
                      +:+ "': " +:+ Error err) ;;
              Ret (Some err)
          | (_, None) => Ret None
          end
      end
  end.

Definition Delete (s : Store.t) (key : string)
  : itree vaultE (option error) :=
  client <- call LoadClient ;;
  match client with
  | None =>
      log s (Error errNoConnection) ;;
      Ret (Some errNoConnection)
  | Some _ =>
      sealed <- call LoadSealed ;;
      if sealed : bool then Ret (Some errSealed) else
      r <- call (LogicalDelete (location s key)) ;;
      match r with
      | (_, Some err) =>
          logf s ("vault: failed to delete '" +:+ location s key +:+ "': "
                  +:+ Error err) ;;
          Ret (Some err)
      | (_, None) => Ret None
      end
  end.

(** The request of an AppRole login. *)
Definition login_request (login : AppRole) : op :=
  LogicalWrite "auth/approle/login"
        {[ "role_id" := VString (ID login);
           "secret_id" := VString (Secret login) ]}.

Definition authenticate (login : AppRole)
  : itree vaultE (string * Duration * option error) :=
  r <- call (login_request login) ;;
  match r with
  | (Some secret, None) =>
      let '(token, err) := vaultapi.TokenID secret in
      match err with
      | Some _ => Ret (token, 0, err)
      | None =>
          let '(ttl, err) := vaultapi.TokenTTL secret in
          match err with
          | Some _ => Ret (token, ttl, err)
          | None => Ret (token, ttl, err)
          end
      end
  | (_, err) => Ret ("", 0, err)
  end.

Definition default_delay (delay : Duration) : Duration :=
  if delay =? 0 then 10 * Second else delay.

(** One iteration of the loop of [checkStatus]; [timer] says whether the
    timer exists already ([timer != nil]). *)
Definition checkStatus_body (delay : Duration) (timer : bool)
  : itree vaultE (bool + unit) :=
  r <- call SysHealth ;;
  match r with
  | (Some status, None) => call (StoreSealed (vaultapi.Sealed status))
  | (None, None) => panic
  | (_, Some _) => Ret tt
  end ;;
  (if timer then call (TimerReset delay) else call (NewTimer delay)) ;;
  w <- call Select ;;
  match w with
  | Done => call TimerStop ;; Ret (inr tt)
  | Fired => Ret (inl true)
  end.

Definition checkStatus (delay : Duration) : itree vaultE unit :=
  ITree.iter (checkStatus_body (default_delay delay)) false.

(** [for s.sealed { ... }] of [renewAuthToken]. *)
Definition wait_unsealed_body (_ : unit) : itree vaultE (unit + flow unit) :=
  sealed <- call LoadSealed ;;
  if sealed : bool then
    call (NewTimer (1 * Second)) ;;
    w <- call Select ;;
    match w with
    | Done => call TimerStop ;; Ret (inr Returns)
    | Fired => Ret (inl tt)
    end
  else Ret (inr (Proceeds tt)).

Definition wait_unsealed : itree vaultE (flow unit) :=
  ITree.iter wait_unsealed_body tt.

(** [if ttl == 0 { ... }] of [renewAuthToken]; it proceeds with the TTL
    the renewal below starts from. *)
Definition reauthenticate (login : AppRole) (ttl : Duration)
  : itree vaultE (flow Duration) :=
  if ttl =? 0 then
    r <- authenticate login ;;
    let '(token, ttl, err) := r in
    match err with
    | Some _ =>
        call (NewTimer (Retry login)) ;;
        w <- call Select ;;
        match w with
        | Done => call TimerStop ;; Ret Returns
        | Fired => Ret Continues
        end
    | None => call (SetToken token) ;; Ret (Proceeds ttl)
    end
  else Ret (Proceeds ttl).

(** One iteration of the inner [for { ... }] of [renewAuthToken];
    [Proceeds] is its [break].  The [ttl] declared inside the loop shadows
    the outer one only until the end of the iteration, so every renewal asks
    for the TTL the loop was entered with. *)
Definition renew_body (ttl : Duration) (_ : unit)
  : itree vaultE (unit + flow unit) :=
  w <- call Select ;;
  match w with
  | Done => call TimerStop ;; Ret (inr Returns)
  | Fired =>
      r <- call (RenewSelf (int_seconds ttl)) ;;
      match r with
      | (Some secret, None) =>
          match vaultapi.TokenIsRenewable secret with
          | (true, None) =>
              match vaultapi.TokenTTL secret with
              | (ttl', None) =>
                  if ttl' =? 0 then Ret (inr (Proceeds tt))
                  else call (TimerReset (ttl' ÷ 2)) ;; Ret (inl tt)
              | (_, Some _) => Ret (inr (Proceeds tt))
              end
          | _ => Ret (inr (Proceeds tt))
          end
      | _ => Ret (inr (Proceeds tt))
      end
  end.

Definition renew_loop (ttl : Duration) : itree vaultE (flow unit) :=
  ITree.iter (renew_body ttl) tt.

Definition default_retry (login : AppRole) : AppRole :=
  if Retry login =? 0
  then {| ID := ID login; Secret := Secret login; Retry := 5 * Second |}
  else login.

(** The renewal of a token with a non-zero TTL: the timer, the loop above
    and, after its [break], [ttl = 0].  [inl ttl] starts the next iteration
    of the outer loop with [ttl], [inr tt] returns. *)
Definition renew (ttl : Duration) : itree vaultE (Duration + unit) :=
  call (NewTimer (ttl ÷ 2)) ;;
  f <- renew_loop ttl ;;
  match f with
  | Returns => Ret (inr tt)
  | _ => Ret (inl 0)
  end.

(** One iteration of the outer loop of [renewAuthToken]. *)
Definition renewAuthToken_body (login : AppRole) (ttl : Duration)
  : itree vaultE (Duration + unit) :=
  f <- wait_unsealed ;;
  match f with
  | Returns => Ret (inr tt)
  | Continues => Ret (inl ttl)
  | Proceeds _ =>
      a <- reauthenticate login ttl ;;
      match a with
      | Returns => Ret (inr tt)
      | Continues => Ret (inl 0)
      | Proceeds ttl => renew ttl
      end
  end.

Definition renewAuthToken (login : AppRole) (ttl : Duration)
  : itree vaultE unit :=
  ITree.iter (renewAuthToken_body (default_retry login)) ttl.

(** [Authenticate]; the context it receives is handed on to the two
    goroutines and shows only in their [Select] events. *)
Definition Authenticate (s : Store.t) : itree vaultE (option error) :=
  let tlsConfig :=
    {| vaultapi.CACert := ""; vaultapi.CAPath := "";
       vaultapi.ClientCert := Store.ClientCertPath s;
       vaultapi.ClientKey := Store.ClientKeyPath s |} in
  c <- (if String.eqb (Store.CAPath s) "" then Ret (inr tlsConfig) else
          r <- call (Stat (Store.CAPath s)) ;;
          match r with
          | (_, Some err) =>
              Ret (inl (ErrorString ("Failed to open '" +:+ Store.CAPath s
                                     +:+ "': " +:+ Error err)))
          | (None, None) => panic
          | (Some stat, None) =>
              if IsDir stat then
                Ret (inr {| vaultapi.CACert := "";
                            vaultapi.CAPath := Store.CAPath s;
                            vaultapi.ClientCert := Store.ClientCertPath s;
                            vaultapi.ClientKey := Store.ClientKeyPath s |})
              else
                Ret (inr {| vaultapi.CACert := Store.CAPath s;
                            vaultapi.CAPath := "";
                            vaultapi.ClientCert := Store.ClientCertPath s;
                            vaultapi.ClientKey := Store.ClientKeyPath s |})
          end) ;;
  match c with
  | inl err => Ret (Some err)
  | inr tlsConfig =>
      r <- call (NewClient (Store.Addr s) tlsConfig) ;;
      match r with
      | (_, Some err) => Ret (Some err)
      | (None, None) =>
          (* a nil client without an error: the first use dereferences it *)
          (if String.eqb (Store.Namespace s) "" then call (StoreClient None)
           else Ret tt) ;;
          panic
      | (Some client, None) =>
          (if String.eqb (Store.Namespace s) "" then Ret tt
           else call (SetNamespace (Store.Namespace s))) ;;
          call (StoreClient (Some client)) ;;
          h <- call SysHealth ;;
          match h with
          | (_, Some err) => Ret (Some err)
          | (None, None) => panic
          | (Some status, None) =>
              call (StoreSealed (vaultapi.Sealed status)) ;;
              a <- (if vaultapi.Sealed status then Ret (inr 0) else
                      r <- authenticate (Store.AppRole s) ;;
                      let '(token, ttl, err) := r in
                      match err with
                      | Some _ => Ret (inl err)
                      | None => call (SetToken token) ;; Ret (inr ttl)
                      end) ;;
              match a with
              | inl err => Ret err
              | inr ttl =>
                  call (Go (go_checkStatus (Store.StatusPingAfter s))) ;;
                  call (Go (go_renewAuthToken (Store.AppRole s) ttl)) ;;
                  Ret None
              end
          end
      end
  end.

End Vault.

(** ** Running a method against an environment *)

(** An event of a run: an operation together with the answer it got. *)
Inductive event := Ev (o : op) (x : resp o).

(** How a run ends: the method returned, or it issued [o] and the
    environment has no answer to it (the script is used up, or [o] is a
    panic). *)
Inductive outcome (R : Type) :=
| Returned (r : R)
| Awaiting (o : op).
Arguments Returned {R} r.
Arguments Awaiting {R} o.

Section Run.

Context {St : Type}.

(** The environment: from its state, the answer to an operation and the
    state after it, if it answers. *)
Variable env : St -> forall o : op, option (St * resp o).

(** [run fuel t s] performs at most [fuel] steps of [t] from the state [s]
    of the environment; [None] says the fuel did not suffice. *)
Fixpoint run {R : Type} (fuel : nat) (t : itree vaultE R) (s : St)
  : option (list event * St * outcome R) :=
  match fuel with
  | O => None
  | S fuel =>
      match observe t with
      | RetF r => Some ([], s, Returned r)
      | TauF t' => run fuel t' s
      | VisF e k =>
          match e in vaultE X return (X -> itree vaultE R) -> _ with
          | Call o => fun k =>
              match env s o with
              | None => Some ([], s, Awaiting o)
              | Some (s', x) =>
                  match run fuel (k x) s' with
                  | Some (tr, s'', out) => Some (Ev o x :: tr, s'', out)
                  | None => None
                  end
              end
          end k
      end
  end.

(** [t] run from [s] produces the events [tr], leaves the environment in
    [s'] and ends as [out]. *)
Definition evaluates {R : Type} (t : itree vaultE R) (s : St)
    (tr : list event) (s' : St) (out : outcome R) : Prop :=
  exists fuel, run fuel t s = Some (tr, s', out).

End Run.

(** *** An open environment: the session state and a script of answers *)

(** The answers of the world outside the store.  [AWake stored w] answers a
    [select]: while the goroutine waited, the other goroutine stored
    [stored] (if any) into [sealed], and then the timer fired or the context
    was cancelled. *)
Inductive answer :=
| AStat (r : option FileInfo * option error)
| AClient (r : option vaultapi.Client * option error)
| AHealth (r : option vaultapi.HealthResponse * option error)
| ASecret (r : option vaultapi.Secret * option error)
| AWake (stored : option bool) (w : wake).

Record Session := {
  client : option vaultapi.Client;
  sealed : bool;
  token : string;
  script : list answer
}.

Definition session (s : Session) (o : op) : option (Session * resp o) :=
  match o return option (Session * resp o) with
  | LoadClient => Some (s, client s)
  | StoreClient c =>
      Some ({| client := c; sealed := sealed s; token := token s;
               script := script s |}, tt)
  | LoadSealed => Some (s, sealed s)
  | StoreSealed b =>
      Some ({| client := client s; sealed := b; token := token s;
               script := script s |}, tt)
  | SetToken tok =>
      Some ({| client := client s; sealed := sealed s; token := tok;
               script := script s |}, tt)
  | SetNamespace _ | Println _ _ | Printf _ _ | NewTimer _ | TimerReset _
  | TimerStop | Go _ => Some (s, tt)
  | Stat _ =>
      match script s with
      | AStat r :: rest =>
          Some ({| client := client s; sealed := sealed s; token := token s;
                   script := rest |}, r)
      | _ => None
      end
  | NewClient _ _ =>
      match script s with
      | AClient r :: rest =>
          Some ({| client := client s; sealed := sealed s; token := token s;
                   script := rest |}, r)
      | _ => None
      end
  | SysHealth =>
      match script s with
      | AHealth r :: rest =>
          Some ({| client := client s; sealed := sealed s; token := token s;
                   script := rest |}, r)
      | _ => None
      end
  | LogicalRead _ | LogicalWrite _ _ | LogicalDelete _ | RenewSelf _ =>
      match script s with
      | ASecret r :: rest =>
          Some ({| client := client s; sealed := sealed s; token := token s;
                   script := rest |}, r)
      | _ => None
      end
  | Select =>
      match script s with
      | AWake stored w :: rest =>
          Some ({| client := client s;
                   sealed := match stored with Some b => b | None => sealed s end;
                   token := token s; script := rest |}, w)
      | _ => None
      end
  | Panic => None
  end.

(** *** A closed environment: a Vault server that keeps what it is given *)

(** The K/V backend as a map from paths to entries.  A read of a path that
    holds nothing yields [(nil, nil)], a read of an entry yields a secret
    with its data; writes and deletes succeed and yield no secret. *)
Record World := {
  w_client : option vaultapi.Client;
  w_sealed : bool;
  w_kv : gmap string (gmap string value)
}.

Definition kv_secret (d : gmap string value) : vaultapi.Secret :=
  {| vaultapi.Data := d; vaultapi.TokenID := ("", None);
     vaultapi.TokenTTL := (0, None);
     vaultapi.TokenIsRenewable := (false, None) |}.

Definition world (w : World) (o : op) : option (World * resp o) :=
  match o return option (World * resp o) with
  | LoadClient => Some (w, w_client w)
  | LoadSealed => Some (w, w_sealed w)
  | LogicalRead path => Some (w, (kv_secret <$> w_kv w !! path, None))
  | LogicalWrite path d =>
      Some ({| w_client := w_client w; w_sealed := w_sealed w;
               w_kv := <[ path := d ]> (w_kv w) |}, (None, None))
  | LogicalDelete path =>
      Some ({| w_client := w_client w; w_sealed := w_sealed w;
               w_kv := delete path (w_kv w) |}, (None, None))
  | Println _ _ | Printf _ _ => Some (w, tt)
  | _ => None
  end.

(** ** Reading the events of a run *)

Definition op_of (e : event) : op := match e with Ev o _ => o end.

(** The requests that reach the Vault server. *)
Definition is_request (o : op) : bool :=
  match o with
  | SysHealth | LogicalRead _ | LogicalWrite _ _ | LogicalDelete _
  | RenewSelf _ => true
  | _ => false
  end.

Definition vault_requests (tr : list event) : list op :=
  List.filter is_request (map op_of tr).

(** The lines written to the error log. *)
Definition log_line (o : op) : option string :=
  match o with
  | Println _ line | Printf _ line => Some line
  | _ => None
  end.

Definition log_lines (tr : list event) : list string :=
  omap log_line (map op_of tr).

(** The line names the path. *)
Definition mentions (path line : string) : Prop :=
  exists pre post, line = pre +:+ path +:+ post.

(** The errors the requests to Vault came back with. *)
Definition request_error (e : event) : option error :=
  match e with
  | Ev o x =>
      match o return resp o -> option error with
      | SysHealth => fun x => snd x
      | LogicalRead _ | LogicalWrite _ _ | LogicalDelete _ | RenewSelf _ =>
          fun x => snd x
      | _ => fun _ => None
      end x
  end.

Definition request_errors (tr : list event) : list error :=
  omap request_error tr.

(** The two errors [Get] makes up for an entry it cannot use. *)
Definition malformed_entry (e : error) : Prop :=
  e = ErrorString "vault: K/V entry does not contain any value" \/
  e = ErrorString "vault: invalid K/V entry format".

(** How a key operation reports the error [e] it returns, given the events
    [tr] of its run: the missing connection is logged as such, without any
    request; [errSealed] is returned without a request and without a log
    line; [ErrKeyNotFound] and [ErrKeyExists] follow a request that succeeded
    and are not logged; the error of a failed request, and an entry [Get]
    cannot use, are logged in one line that names the path. *)
Definition reported (ErrKeyNotFound ErrKeyExists : error) (path : string)
    (tr : list event) (e : error) : Prop :=
  (e = ErrorString "vault: no connection to vault server" /\
   vault_requests tr = [] /\
   log_lines tr = ["vault: no connection to vault server"]) \/
  (e = KesError 403 "key store is sealed" /\
   vault_requests tr = [] /\ log_lines tr = []) \/
  ((e = ErrKeyNotFound \/ e = ErrKeyExists) /\
   request_errors tr = [] /\ log_lines tr = []) \/
  ((request_errors tr = [e] \/ request_errors tr = [] /\ malformed_entry e) /\
   exists line, log_lines tr = [line] /\ mentions path line).

(** ** Properties of runs *)

Section Properties.

Context {St : Type} (env : St -> forall o : op, option (St * resp o)).

(** Every run of [t], complete or not, has events and an outcome that
    satisfy [Q]. *)
Definition post {R} (t : itree vaultE R)
    (Q : list event -> outcome R -> Prop) : Prop :=
  forall n s tr s' out, run env n t s = Some (tr, s', out) -> Q tr out.

End Properties.

(** The run ended in a [select] that saw the context cancelled, after which
    the timer was stopped. *)
Definition cancelled (tr : list event) : Prop :=
  exists tr0, tr = tr0 ++ [Ev Select Done; Ev TimerStop tt].

(** What the monitor does to the shared fields, the server and its timer. *)
Definition is_monitor_op (o : op) : bool :=
  match o with
  | SysHealth | StoreSealed _ | NewTimer _ | TimerReset _ | Select
  | TimerStop => true
  | _ => false
  end.

(** The [sealed] flag after a health query answered [h], when it was [b]. *)
Definition reported_sealed (h : option vaultapi.HealthResponse * option error)
    (b : bool) : bool :=
  match h with
  | (Some status, None) => vaultapi.Sealed status
  | _ => b
  end.

Definition sealed_after (b : bool)
    (hs : list (option vaultapi.HealthResponse * option error)) : bool :=
  fold_left (fun b h => reported_sealed h b) hs b.

(** The events of one tick of the monitor up to its wait: the query, the
    store into [sealed] when the query succeeded, and the timer set to [d]
    (created on the first tick, reset afterwards). *)
Definition tick_events (d : Duration) (first : bool)
    (h : option vaultapi.HealthResponse * option error) : list event :=
  Ev SysHealth h ::
  match h with
  | (Some status, None) => [Ev (StoreSealed (vaultapi.Sealed status)) tt]
  | _ => []
  end ++
  [if first then Ev (NewTimer d) tt else Ev (TimerReset d) tt].

(** The events of the ticks answered by [hs], each ended by its timer. *)
Fixpoint ticks_events (d : Duration) (first : bool)
    (hs : list (option vaultapi.HealthResponse * option error))
  : list event :=
  match hs with
  | [] => []
  | h :: hs => tick_events d first h ++ Ev Select Fired
               :: ticks_events d false hs
  end.

(** The answers that make the monitor tick through [hs]. *)
Definition ticks_script
    (hs : list (option vaultapi.HealthResponse * option error))
  : list answer :=
  flat_map (fun h => [AHealth h; AWake None Fired]) hs.

(** [authenticate] returns an error on the answer [r] to its login: the
    request failed, or the secret holds no readable token or TTL. *)
Definition login_failed (r : option vaultapi.Secret * option error) : bool :=
  match r with
  | (_, Some _) => true
  | (None, None) => false
  | (Some secret, None) =>
      match vaultapi.TokenID secret, vaultapi.TokenTTL secret with
      | (_, None), (_, None) => false
      | _, _ => true
      end
  end.

Definition failed {A} (r : A * option error) : bool :=
  match r with
  | (_, Some _) => true
  | (_, None) => false
  end.

(** The three ways a renewal fails.  (a) The call fails or yields no lease:
    an error, no secret, or a secret whose renewable flag or TTL cannot be
    read. *)
Definition no_lease (r : option vaultapi.Secret * option error) : bool :=
  match r with
  | (Some secret, None) =>
      failed (vaultapi.TokenIsRenewable secret)
      || failed (vaultapi.TokenTTL secret)
  | _ => true
  end.

(** (b) The lease is not renewable. *)
Definition not_renewable (r : option vaultapi.Secret * option error) : bool :=
  match r with
  | (Some secret, _) => negb (fst (vaultapi.TokenIsRenewable secret))
  | _ => false
  end.

(** (c) The new TTL of the lease is zero. *)
Definition zero_ttl (r : option vaultapi.Secret * option error) : bool :=
  match r with
  | (Some secret, _) => fst (vaultapi.TokenTTL secret) =? 0
  | _ => false
  end.

Definition renewal_failed (r : option vaultapi.Secret * option error) : bool :=
  no_lease r || not_renewable r || zero_ttl r.

(** One poll of the [sealed] flag that finds it set, and [n] of them. *)
Definition poll : list event :=
  [Ev LoadSealed true; Ev (NewTimer (1 * Second)) tt; Ev Select Fired].

Fixpoint polls (n : nat) : list event :=
  match n with
  | O => []
  | S n => poll ++ polls n
  end.

(** The answers and the events of the renewals that yield the secrets
    [oks], each after its timer fired: the renewal asks for [increment]
    seconds and the timer is reset to half of the new TTL. *)
Definition renewals_script (oks : list vaultapi.Secret) : list answer :=
  flat_map (fun sec => [AWake None Fired; ASecret (Some sec, None)]) oks.

Definition renewals_events (increment : Z) (oks : list vaultapi.Secret)
  : list event :=
  flat_map (fun sec =>
              [Ev Select Fired;
               Ev (RenewSelf increment) (Some sec, None);
               Ev (TimerReset (fst (vaultapi.TokenTTL sec) ÷ 2)) tt]) oks.

(** The answers and the events of the logins that fail with [rs], each
    followed by the retry delay [retry]. *)
Definition failed_logins_script
    (rs : list (option vaultapi.Secret * option error)) : list answer :=
  flat_map (fun r => [ASecret r; AWake None Fired]) rs.

Definition failed_logins_events (login : AppRole)
    (rs : list (option vaultapi.Secret * option error)) : list event :=
  flat_map (fun r =>
              [Ev LoadSealed false;
               Ev (login_request login) r;
               Ev (NewTimer (Retry login)) tt;
               Ev Select Fired]) rs.

(** The requests that obtain or renew the token. *)
Definition is_token_request (o : op) : bool :=
  match o with
  | RenewSelf _ => true
  | LogicalWrite path _ => String.eqb path "auth/approle/login"
  | _ => false
  end.

(** The engine [t], started in the session [s], never has a login or a
    renewal under way while [sealed] is set. *)
Definition suspended_while_sealed (t : itree vaultE unit) (s : Session)
  : Prop :=
  forall tr s' o,
    evaluates session t s tr s' (Awaiting o) ->
    sealed s' = true -> is_token_request o = false.

(** What [Authenticate] does before it asks for the health of the server,
    when all of it succeeds: the [os.Stat] of the CA path if one is set
    (answered by [fi]), the TLS configuration built from it, and the
    namespace set on the client if one is configured. *)
Definition stat_script (s : Store.t) (fi : FileInfo) : list answer :=
  if String.eqb (Store.CAPath s) "" then [] else [AStat (Some fi, None)].

Definition stat_events (s : Store.t) (fi : FileInfo) : list event :=
  if String.eqb (Store.CAPath s) "" then []
  else [Ev (Stat (Store.CAPath s)) (Some fi, None)].

Definition tls_config (s : Store.t) (fi : FileInfo) : vaultapi.TLSConfig :=
  {| vaultapi.CACert :=
       if String.eqb (Store.CAPath s) "" then ""
       else if IsDir fi then "" else Store.CAPath s;
     vaultapi.CAPath :=
       if String.eqb (Store.CAPath s) "" then ""
       else if IsDir fi then Store.CAPath s else "";
     vaultapi.ClientCert := Store.ClientCertPath s;
     vaultapi.ClientKey := Store.ClientKeyPath s |}.

Definition namespace_events (s : Store.t) : list event :=
  if String.eqb (Store.Namespace s) "" then []
  else [Ev (SetNamespace (Store.Namespace s)) tt].

(** A block that signals [Returns] has just seen the cancellation. *)
Definition returns_cancelled {A} (tr : list event) (out : outcome (flow A))
  : Prop :=
  out = Returned Returns -> cancelled tr.

(** ** Examples *)

Definition example_store : Store.t :=
  {| Store.Addr := "https://127.0.0.1:8200";
     Store.Location := "keys/my-app";
     Store.AppRole := {| ID := "role"; Secret := "secret"; Retry := 0 |};
     Store.StatusPingAfter := 0;
     Store.ErrorLog := None;
     Store.ClientKeyPath := "";
     Store.ClientCertPath := "";
     Store.CAPath := "";
     Store.Namespace := "" |}.

Definition example_ErrKeyNotFound : error := KesError 404 "key does not exist".
Definition example_ErrKeyExists : error := KesError 400 "key does already exist".

(** [int(ttl.Seconds())] for a TTL of whole seconds. *)
Definition example_int_seconds (d : Duration) : Z := d ÷ Second.

Definition example_error : error := ErrorString "connection refused".

Definition example_path : string := location example_store "db-key".

Definition example_entry : gmap string value :=
  {[ "db-key" := VString "secret123" ]}.

(** A secret that carries a renewable token with the TTL [ttl]. *)
Definition example_lease (ttl : Duration) : vaultapi.Secret :=
  {| vaultapi.Data := ∅;
     vaultapi.TokenID := ("s.token", None);
     vaultapi.TokenTTL := (ttl, None);
     vaultapi.TokenIsRenewable := (true, None) |}.

(** A secret whose token cannot be read. *)
Definition example_broken_lease : vaultapi.Secret :=
  {| vaultapi.Data := ∅;
     vaultapi.TokenID := ("", Some (ErrorString "token found but in the wrong format"));
     vaultapi.TokenTTL := (0, None);
     vaultapi.TokenIsRenewable := (false, None) |}.

Definition example_session (b : bool) (sc : list answer) : Session :=
  {| client := Some 1%nat; sealed := b; token := "s.token"; script := sc |}.

Definition example_world (b : bool) (kv : gmap string (gmap string value))
  : World :=
  {| w_client := Some 1%nat; w_sealed := b; w_kv := kv |}.

Definition example_login : AppRole := Store.AppRole example_store.

Definition example_failing : option vaultapi.Secret * option error :=
  (None, Some example_error).

(** A renewal answered with a TTL of zero. *)
Definition example_expired : option vaultapi.Secret * option error :=
  (Some (example_lease 0), None).

Definition example_renewals : list vaultapi.Secret :=
  [example_lease (20 * Second)].

Definition example_failed_logins
  : list (option vaultapi.Secret * option error) :=
  [example_failing; (Some example_broken_lease, None)].

Definition example_health
  : list (option vaultapi.HealthResponse * option error) :=
  [(Some {| vaultapi.Sealed := true |}, None); (None, Some example_error)].

Definition example_loads : list event :=
  [Ev LoadClient (Some 1%nat); Ev LoadSealed false].

(** The run of the engine when its first login fails and the context is
    cancelled during the retry delay. *)
Definition example_cancelled_login : list event :=
  [Ev LoadSealed false;
   Ev (login_request (default_retry example_login)) example_failing;
   Ev (NewTimer (5 * Second)) tt; Ev Select Done; Ev TimerStop tt].

(** The run of the monitor when the context is cancelled in its first
    tick. *)
Definition example_cancelled_tick : list event :=
  [Ev SysHealth (Some {| vaultapi.Sealed := true |}, None);
   Ev (StoreSealed true) tt; Ev (NewTimer (10 * Second)) tt;
   Ev Select Done; Ev TimerStop tt].

(** ** More ways to read the events of a run *)

(** The goroutines a run started, in the order of their [go] statements. *)
Definition goroutine_of (o : op) : option goroutine :=
  match o with
  | Go g => Some g
  | _ => None
  end.

Definition goroutines (tr : list event) : list goroutine :=
  omap goroutine_of (map op_of tr).

(** The tokens a run set on the client. *)
Definition token_of (o : op) : option string :=
  match o with
  | SetToken tok => Some tok
  | _ => None
  end.

Definition tokens_set (tr : list event) : list string :=
  omap token_of (map op_of tr).

(** A load of one of the two shared fields of the store. *)
Definition is_load (o : op) : bool :=
  match o with
  | LoadClient | LoadSealed => true
  | _ => false
  end.

(** A line written to the logger [l] ([None]: the standard logger). *)
Definition logs_to (l : option Logger) (o : op) : bool :=
  match o with
  | Println l' _ | Printf l' _ => bool_decide (l' = l)
  | _ => false
  end.

(** What a key operation of the store [s] does besides its requests: it
    loads the two fields and writes to the error log of [s]. *)
Definition is_key_op (s : Store.t) (o : op) : bool :=
  is_request o || is_load o || logs_to (Store.ErrorLog s) o.

(** Values of a decoded response can be compared. *)
#[global] Instance value_eq_dec : EqDecision value.
Proof. solve_decision. Defined.

(** What the engine does: it loads [sealed], sends the login of [login],
    sets a token, asks for a renewal, and handles its timers and its
    context. *)
Definition is_engine_op (login : AppRole) (o : op) : bool :=
  match o with
  | LoadSealed | SetToken _ | RenewSelf _ | NewTimer _ | TimerReset _
  | TimerStop | Select => true
  | LogicalWrite path d =>
      String.eqb path "auth/approle/login"
      && bool_decide (d = {[ "role_id" := VString (ID login);
                             "secret_id" := VString (Secret login) ]})
  | _ => false
  end.

(** What the renewal of a lease does: it asks for renewals and handles its
    timer and its context. *)
Definition is_renewal_op (o : op) : bool :=
  match o with
  | RenewSelf _ | NewTimer _ | TimerReset _ | TimerStop | Select => true
  | _ => false
  end.

(** The AppRole login. *)
Definition is_login (o : op) : bool :=
  match o with
  | LogicalWrite path _ => String.eqb path "auth/approle/login"
  | _ => false
  end.

(** The events of a run hold no login. *)
Definition no_login (tr : list event) : Prop :=
  Forall (fun e => is_login (op_of e) = false) tr.

(** The event is a load of [sealed] that found the flag cleared. *)
Definition read_unsealed (e : event) : bool :=
  match e with
  | Ev o x =>
      match o return resp o -> bool with
      | LoadSealed => fun b => negb b
      | _ => fun _ => false
      end x
  end.

(** Every login of [tr] directly follows a load of [sealed] that found the
    flag cleared; [ready] says whether the event before [tr] was such a
    load. *)
Fixpoint logins_follow_unsealed (ready : bool) (tr : list event) : bool :=
  match tr with
  | [] => true
  | e :: tr =>
      (if is_login (op_of e) then ready else true)
      && logins_follow_unsealed (read_unsealed e) tr
  end.

(** The error [authenticate] returns on the answer [r] to its login: the
    error of the request, or else of [TokenID], or else of [TokenTTL]. *)
Definition login_error (r : option vaultapi.Secret * option error)
  : option error :=
  match r with
  | (_, Some err) => Some err
  | (None, None) => None
  | (Some secret, None) =>
      match vaultapi.TokenID secret with
      | (_, Some err) => Some err
      | (_, None) => snd (vaultapi.TokenTTL secret)
      end
  end.

(** The events of a key operation on a connected and unsealed store, up to
    its first request. *)
Definition loads (c : vaultapi.Client) : list event :=
  [Ev LoadClient (Some c); Ev LoadSealed false].

(** The events of [Authenticate] up to the moment it asks for the health of
    the server, when [os.Stat] (answered by [fi]) and [NewClient] (answered
    by the client [cl]) succeed. *)
Definition connect_events (s : Store.t) (fi : FileInfo)
    (cl : vaultapi.Client) : list event :=
  stat_events s fi
  ++ Ev (NewClient (Store.Addr s) (tls_config s fi)) (Some cl, None)
  :: namespace_events s ++ [Ev (StoreClient (Some cl)) tt].

Definition connect_script (s : Store.t) (fi : FileInfo)
    (cl : vaultapi.Client) : list answer :=
  stat_script s fi ++ [AClient (Some cl, None)].

(** The answers and the events of an [Authenticate] that finds the server
    unsealed and logs in: the login yields the secret [sec], whose token is
    [tk] and whose TTL is [ttl]. *)
Definition login_script (s : Store.t) (fi : FileInfo) (cl : vaultapi.Client)
    (sec : vaultapi.Secret) : list answer :=
  connect_script s fi cl
  ++ [AHealth (Some {| vaultapi.Sealed := false |}, None);
      ASecret (Some sec, None)].

Definition login_events (s : Store.t) (fi : FileInfo) (cl : vaultapi.Client)
    (sec : vaultapi.Secret) (tk : string) (ttl : Duration) : list event :=
  connect_events s fi cl
  ++ [Ev SysHealth (Some {| vaultapi.Sealed := false |}, None);
      Ev (StoreSealed false) tt;
      Ev (login_request (Store.AppRole s)) (Some sec, None);
      Ev (SetToken tk) tt;
      Ev (Go (go_checkStatus (Store.StatusPingAfter s))) tt;
      Ev (Go (go_renewAuthToken (Store.AppRole s) ttl)) tt].

(** ** More examples *)

Definition example_other_store : Store.t :=
  {| Store.Addr := "https://127.0.0.1:8200";
     Store.Location := "keys";
     Store.AppRole := {| ID := "role"; Secret := "secret"; Retry := 0 |};
     Store.StatusPingAfter := 0;
     Store.ErrorLog := Some 7%nat;
     Store.ClientKeyPath := "";
     Store.ClientCertPath := "";
     Store.CAPath := "/etc/vault/ca.pem";
     Store.Namespace := "tenant" |}.

Definition example_kv : gmap string (gmap string value) :=
  {[ example_path := example_entry ]}.

(** The events of a [Get] of [db-key] that finds the entry. *)
Definition example_read : list event :=
  loads 1%nat
  ++ [Ev (LogicalRead example_path) (Some (kv_secret example_entry), None)].

(** The events of a [Create] of [db-key] on a path that holds nothing. *)
Definition example_created : list event :=
  loads 1%nat
  ++ [Ev (LogicalRead example_path) (None, None);
      Ev (LogicalWrite example_path example_entry) (None, None)].

Definition example_file : FileInfo := {| IsDir := false |}.

Definition example_unconnected (sc : list answer) : Session :=
  {| client := None; sealed := false; token := ""; script := sc |}.

(** ** Facts about runs *)

Lemma observe_bind {E A B} (t : itree E A) (k : A -> itree E B) :
  observe (ITree.bind t k) =
  match observe t with
  | RetF r => observe (k r)
  | TauF t' => TauF (ITree.bind t' k)
  | VisF e h => VisF e (fun x => ITree.bind (h x) k)
  end.
Proof.
  transitivity (observe (match observe t with
                         | RetF r => k r
                         | TauF t' => Tau (ITree.bind t' k)
                         | VisF e h => Vis e (fun x => ITree.bind (h x) k)
                         end)); [reflexivity|].
  destruct (observe t); reflexivity.
Qed.

Lemma observe_iter {E I R} (body : I -> itree E (I + R)) (i : I) :
  observe (ITree.iter body i) =
  observe (ITree.bind (body i) (fun lr =>
             match lr with
             | inl l => Tau (ITree.iter body l)
             | inr r => Ret r
             end)).
Proof. reflexivity. Qed.

Section RunFacts.

Context {St : Type} (env : St -> forall o : op, option (St * resp o)).

Lemma run_unfold {R} n (t : itree vaultE R) s :
  run env (S n) t s =
  match observe t with
  | RetF r => Some ([], s, Returned r)
  | TauF t' => run env n t' s
  | VisF e k =>
      match e in vaultE X return (X -> itree vaultE R) -> _ with
      | Call o => fun k =>
          match env s o with
          | None => Some ([], s, Awaiting o)
          | Some (s', x) =>
              match run env n (k x) s' with
              | Some (tr, s'', out) => Some (Ev o x :: tr, s'', out)
              | None => None
              end
          end
      end k
  end.
Proof. reflexivity. Qed.

Lemma run_observe {R} (t t' : itree vaultE R) n s :
  observe t = observe t' -> run env n t s = run env n t' s.
Proof.
  intros H. destruct n as [|n]; [reflexivity|].
  rewrite !run_unfold. now rewrite H.
Qed.

Lemma run_S {R} n (t : itree vaultE R) s res :
  run env n t s = Some res -> run env (S n) t s = Some res.
Proof.
  revert t s res. induction n as [|n IH]; intros t s res H; [discriminate|].
  rewrite run_unfold in H. rewrite run_unfold.
  destruct (observe t) as [r|t'|X e k]; [exact H|now apply IH|].
  destruct e as [o]. destruct (env s o) as [[s' x]|]; [|exact H].
  destruct (run env n (k x) s') as [[[tr s''] out]|] eqn:E; [|discriminate].
  now rewrite (IH _ _ _ E).
Qed.

Lemma run_mono {R} n m (t : itree vaultE R) s res :
  run env n t s = Some res -> (n <= m)%nat -> run env m t s = Some res.
Proof.
  intros H Hle. induction Hle as [|m _ IH]; [exact H|]. now apply run_S.
Qed.

Lemma evaluates_det {R} (t : itree vaultE R) s tr1 s1 out1 tr2 s2 out2 :
  evaluates env t s tr1 s1 out1 -> evaluates env t s tr2 s2 out2 ->
  tr1 = tr2 /\ s1 = s2 /\ out1 = out2.
Proof.
  intros [n Hn] [m Hm].
  apply (run_mono n (n + m)) in Hn; [|lia].
  apply (run_mono m (n + m)) in Hm; [|lia].
  rewrite Hn in Hm. now inversion Hm.
Qed.

(** A run of [x <- t ;; k x] is a run of [t] followed by a run of [k]. *)
Lemma run_bind {R T} n1 n2 (t : itree vaultE R) (k : R -> itree vaultE T)
    s tr1 s1 r tr2 s2 out :
  run env n1 t s = Some (tr1, s1, Returned r) ->
  run env n2 (k r) s1 = Some (tr2, s2, out) ->
  run env (n1 + n2) (ITree.bind t k) s = Some (tr1 ++ tr2, s2, out).
Proof.
  revert t s tr1. induction n1 as [|n1 IH]; intros t s tr1 H1 H2;
    [discriminate|].
  rewrite run_unfold in H1.
  change (S n1 + n2)%nat with (S (n1 + n2)).
  rewrite run_unfold, observe_bind.
  destruct (observe t) as [r0|t'|X e h].
  - inversion H1; subst. rewrite <- run_unfold.
    now apply (run_mono n2 (S (n1 + n2))); [|lia].
  - now apply IH.
  - destruct e as [o]. destruct (env s o) as [[s' x]|]; [|discriminate].
    destruct (run env n1 (h x) s') as [[[tr s''] out']|] eqn:E;
      [|discriminate].
    inversion H1; subst. now rewrite (IH _ _ _ E H2).
Qed.

Lemma run_bind_awaiting {R T} n (t : itree vaultE R)
    (k : R -> itree vaultE T) s tr s' o :
  run env n t s = Some (tr, s', Awaiting o) ->
  run env n (ITree.bind t k) s = Some (tr, s', Awaiting o).
Proof.
  revert t s tr. induction n as [|n IH]; intros t s tr H; [discriminate|].
  rewrite run_unfold in H. rewrite run_unfold, observe_bind.
  destruct (observe t) as [r0|t'|X e h]; [discriminate|now apply IH|].
  destruct e as [o']. destruct (env s o') as [[s1 x]|];
    [|now inversion H; subst].
  destruct (run env n (h x) s1) as [[[tr' s''] out']|] eqn:E;
    [|discriminate].
  inversion H; subst. now rewrite (IH _ _ _ E).
Qed.

(** Conversely, a run of [x <- t ;; k x] splits. *)
Lemma run_bind_inv {R T} n (t : itree vaultE R) (k : R -> itree vaultE T)
    s tr s' out :
  run env n (ITree.bind t k) s = Some (tr, s', out) ->
  (exists tr1 s1 r tr2,
      run env n t s = Some (tr1, s1, Returned r) /\
      run env n (k r) s1 = Some (tr2, s', out) /\ tr = tr1 ++ tr2) \/
  (exists o, run env n t s = Some (tr, s', Awaiting o) /\ out = Awaiting o).
Proof.
  revert t s tr. induction n as [|n IH]; intros t s tr H; [discriminate|].
  rewrite run_unfold, observe_bind in H. rewrite (run_unfold n t).
  destruct (observe t) as [r0|t'|X e h].
  - left. exists [], s, r0, tr. rewrite run_unfold. auto.
  - destruct (IH _ _ _ H) as [(tr1 & s1 & r & tr2 & H1 & H2 & ->)|(o & H1 & ->)].
    + left. exists tr1, s1, r, tr2.
      split; [exact H1|]. split; [now apply run_S|reflexivity].
    + right. exists o. auto.
  - destruct e as [o']. destruct (env s o') as [[s1 x]|].
    + destruct (run env n (ITree.bind (h x) k) s1) as [[[tr' s''] out']|] eqn:E;
        [|discriminate].
      inversion H; subst.
      destruct (IH _ _ _ E) as [(tr1 & s2 & r & tr2 & H1 & H2 & ->)|(o & H1 & ->)].
      * left. exists (Ev o' x :: tr1), s2, r, tr2. rewrite H1.
        split; [reflexivity|]. split; [now apply run_S|reflexivity].
      * right. exists o. rewrite H1. auto.
    + inversion H; subst. right. exists o'. auto.
Qed.

Lemma run_call (o : op) n s :
  run env (S n) (call o) s =
  match env s o with
  | None => Some ([], s, Awaiting o)
  | Some (s', x) =>
      match n with
      | O => None
      | S _ => Some ([Ev o x], s', Returned x)
      end
  end.
Proof.
  rewrite run_unfold. simpl observe. cbv beta iota.
  destruct (env s o) as [[s' x]|]; [|reflexivity].
  destruct n; reflexivity.
Qed.

(** *** Rules for [evaluates] *)

Lemma ev_ret {R} (r : R) s : evaluates env (Ret r) s [] s (Returned r).
Proof. now exists 1%nat. Qed.

Lemma ev_bind {R T} (t : itree vaultE R) (k : R -> itree vaultE T)
    s tr1 s1 r tr2 s2 out :
  evaluates env t s tr1 s1 (Returned r) ->
  evaluates env (k r) s1 tr2 s2 out ->
  evaluates env (ITree.bind t k) s (tr1 ++ tr2) s2 out.
Proof.
  intros [n1 H1] [n2 H2]. exists (n1 + n2)%nat. now apply run_bind with s1 r.
Qed.

Lemma ev_bind_awaiting {R T} (t : itree vaultE R) (k : R -> itree vaultE T)
    s tr s' o :
  evaluates env t s tr s' (Awaiting o) ->
  evaluates env (ITree.bind t k) s tr s' (Awaiting o).
Proof. intros [n H]. exists n. now apply run_bind_awaiting. Qed.

Lemma ev_call (o : op) s s' x :
  env s o = Some (s', x) -> evaluates env (call o) s [Ev o x] s' (Returned x).
Proof. intros H. exists 2%nat. rewrite run_call, H. reflexivity. Qed.

Lemma ev_call_awaiting (o : op) s :
  env s o = None -> evaluates env (call o) s [] s (Awaiting o).
Proof. intros H. exists 1%nat. rewrite run_call, H. reflexivity. Qed.

(** [x <- call o ;; k x] when the environment answers [o] with [x]. *)
Lemma ev_do {T} (o : op) (k : resp o -> itree vaultE T) s s1 x tr s2 out :
  env s o = Some (s1, x) ->
  evaluates env (k x) s1 tr s2 out ->
  evaluates env (ITree.bind (call o) k) s (Ev o x :: tr) s2 out.
Proof.
  intros H Hk.
  exact (ev_bind (call o) k s [Ev o x] s1 x tr s2 out (ev_call o s s1 x H) Hk).
Qed.

Lemma ev_do_awaiting {T} (o : op) (k : resp o -> itree vaultE T) s :
  env s o = None ->
  evaluates env (ITree.bind (call o) k) s [] s (Awaiting o).
Proof. intros H. now apply ev_bind_awaiting, ev_call_awaiting. Qed.

Lemma ev_tau {R} (t : itree vaultE R) s tr s' out :
  evaluates env t s tr s' out -> evaluates env (Tau t) s tr s' out.
Proof. intros [n H]. now exists (S n). Qed.

Lemma ev_iter_unfold {I R} (body : I -> itree vaultE (I + R)) i s tr s' out :
  evaluates env (ITree.bind (body i) (fun lr =>
                   match lr with
                   | inl l => Tau (ITree.iter body l)
                   | inr r => Ret r
                   end)) s tr s' out ->
  evaluates env (ITree.iter body i) s tr s' out.
Proof.
  intros [n H]. exists n. rewrite <- H. apply run_observe, observe_iter.
Qed.

(** One more iteration of a loop. *)
Lemma ev_iter_again {I R} (body : I -> itree vaultE (I + R)) i i' s tr1 s1
    tr2 s2 out :
  evaluates env (body i) s tr1 s1 (Returned (inl i')) ->
  evaluates env (ITree.iter body i') s1 tr2 s2 out ->
  evaluates env (ITree.iter body i) s (tr1 ++ tr2) s2 out.
Proof.
  intros H1 H2. apply ev_iter_unfold.
  eapply ev_bind; [exact H1|]. now apply ev_tau.
Qed.

(** The last iteration of a loop. *)
Lemma ev_iter_exit {I R} (body : I -> itree vaultE (I + R)) i s tr s' r :
  evaluates env (body i) s tr s' (Returned (inr r)) ->
  evaluates env (ITree.iter body i) s tr s' (Returned r).
Proof.
  intros H. apply ev_iter_unfold. rewrite <- (app_nil_r tr).
  eapply ev_bind; [exact H|]. apply ev_ret.
Qed.

Lemma ev_iter_awaiting {I R} (body : I -> itree vaultE (I + R)) i s tr s' o :
  evaluates env (body i) s tr s' (Awaiting o) ->
  evaluates env (ITree.iter body i) s tr s' (Awaiting o).
Proof. intros H. now apply ev_iter_unfold, ev_bind_awaiting. Qed.

End RunFacts.

Lemma ev_ret_bind {St} (env : St -> forall o : op, option (St * resp o))
    {R T} (r : R) (k : R -> itree vaultE T) s tr s' out :
  evaluates env (k r) s tr s' out ->
  evaluates env (ITree.bind (Ret r) k) s tr s' out.
Proof.
  intros [n H]. exists n. rewrite <- H. apply run_observe.
  now rewrite observe_bind.
Qed.

Lemma run_bind_bind {St} (env : St -> forall o : op, option (St * resp o))
    {A B C} n (t : itree vaultE A) (f : A -> itree vaultE B)
    (g : B -> itree vaultE C) s :
  run env n (ITree.bind (ITree.bind t f) g) s =
  run env n (ITree.bind t (fun x => ITree.bind (f x) g)) s.
Proof.
  revert t s. induction n as [|n IH]; intros t s; [reflexivity|].
  rewrite !run_unfold, !observe_bind.
  destruct (observe t) as [r|t'|X e h].
  - cbv beta. now rewrite (observe_bind (f r) g).
  - apply IH.
  - destruct e as [o]. destruct (env s o) as [[s1 x]|]; [|reflexivity].
    now rewrite IH.
Qed.

Lemma ev_bind_bind {St} (env : St -> forall o : op, option (St * resp o))
    {A B C} (t : itree vaultE A) (f : A -> itree vaultE B)
    (g : B -> itree vaultE C) s tr s' out :
  evaluates env (ITree.bind t (fun x => ITree.bind (f x) g)) s tr s' out ->
  evaluates env (ITree.bind (ITree.bind t f) g) s tr s' out.
Proof. intros [n H]. exists n. now rewrite run_bind_bind. Qed.

Lemma ev_shaped {St} (env : St -> forall o : op, option (St * resp o)) {R}
    (t : itree vaultE R) s s0 tr tr0 s' out :
  evaluates env t s0 tr0 s' out -> s0 = s -> tr0 = tr ->
  evaluates env t s tr s' out.
Proof. now intros H <- <-. Qed.

(** ** Symbolic execution *)

(** Runs a method forward against an environment whose state is known far
    enough: each [call] is answered by computing the environment. *)
Ltac ev_step :=
  lazymatch goal with
  | |- evaluates _ (Ret _) _ _ _ _ => apply ev_ret
  | |- evaluates ?env (ITree.bind (call ?o) ?k) _ _ _ _ =>
      first [ eapply (ev_do env o k); [reflexivity|];
              cbv beta iota;
              cbn [client sealed token script w_client w_sealed w_kv
                   vaultapi.Sealed IsDir]
            | apply (ev_do_awaiting env o k); reflexivity ]
  | |- evaluates ?env (ITree.bind (Ret ?r) ?k) _ _ _ _ =>
      apply (ev_ret_bind env r k); cbv beta iota
  | |- evaluates ?env (ITree.bind (ITree.bind ?t ?f) ?g) _ _ _ _ =>
      apply (ev_bind_bind env t f g); cbv beta iota
  | |- evaluates ?env (call ?o) _ _ _ _ =>
      first [ eapply (ev_call env o); reflexivity
            | apply (ev_call_awaiting env o); reflexivity ]
  end.

Ltac ev_run := repeat ev_step.

(** Runs forward through the lookups whose result a hypothesis gives. *)
Ltac ev_go :=
  repeat first
    [ ev_step
    | match goal with
      | H : ?l = _ |- context [match ?l with _ => _ end] =>
          rewrite H; cbv beta iota
      end ].

(** Computes the run of a loop-free block, leaving the events, the final
    state and the outcome to be read off. *)
Ltac ev_compute :=
  lazymatch goal with
  | |- evaluates ?env ?t ?s _ _ _ =>
      let H := fresh in
      eassert (H : evaluates env t s _ _ _); [solve [ev_go]|exact H]
  end.

(** Replaces a run [H] by the run computed from its program and state. *)
Ltac ev_forward H :=
  match type of H with
  | evaluates ?env ?t ?s _ _ _ =>
      let Hc := fresh "Hc" in
      eassert (Hc : evaluates env t s _ _ _) by ev_go;
      let Hout := fresh "Hout" in
      destruct (evaluates_det env _ _ _ _ _ _ _ _ H Hc) as (-> & -> & Hout);
      clear Hc; try discriminate Hout
  end.

(** Two lists that differ in how they are bracketed. *)
Ltac list_shape :=
  repeat first [progress cbn [app] | rewrite <- app_assoc]; reflexivity.

(** ** Properties of every run *)

Section Post.

Context {St : Type} (env : St -> forall o : op, option (St * resp o)).

Lemma post_ret {R} (r : R) (Q : list event -> outcome R -> Prop) :
  Q [] (Returned r) -> post env (Ret r) Q.
Proof.
  intros H [|n] s tr s' out Hr; [discriminate|].
  rewrite run_unfold in Hr. simpl in Hr. now inversion Hr; subst.
Qed.

Lemma post_bind {R T} (t : itree vaultE R) (k : R -> itree vaultE T)
    (Q1 : list event -> outcome R -> Prop)
    (Q : list event -> outcome T -> Prop) :
  post env t Q1 ->
  (forall tr1 r, Q1 tr1 (Returned r) ->
                 post env (k r) (fun tr2 out => Q (tr1 ++ tr2) out)) ->
  (forall tr o, Q1 tr (Awaiting o) -> Q tr (Awaiting o)) ->
  post env (ITree.bind t k) Q.
Proof.
  intros Ht Hk Ha n s tr s' out Hr.
  destruct (run_bind_inv env _ _ _ _ _ _ _ Hr)
    as [(tr1 & s1 & r & tr2 & H1 & H2 & ->)|(o & H1 & ->)].
  - exact (Hk _ _ (Ht _ _ _ _ _ H1) _ _ _ _ _ H2).
  - exact (Ha _ _ (Ht _ _ _ _ _ H1)).
Qed.

Lemma post_call (o : op) (Q : list event -> outcome (resp o) -> Prop) :
  (forall x, Q [Ev o x] (Returned x)) -> Q [] (Awaiting o) ->
  post env (call o) Q.
Proof.
  intros Hx Ha [|n] s tr s' out Hr; [discriminate|].
  rewrite run_call in Hr. destruct (env s o) as [[s1 x]|].
  - destruct n; [discriminate|]. inversion Hr; subst. apply Hx.
  - inversion Hr; subst. apply Ha.
Qed.

Lemma post_do {T} (o : op) (k : resp o -> itree vaultE T)
    (Q : list event -> outcome T -> Prop) :
  (forall x, post env (k x) (fun tr out => Q (Ev o x :: tr) out)) ->
  Q [] (Awaiting o) ->
  post env (ITree.bind (call o) k) Q.
Proof.
  intros Hk Ha.
  apply post_bind with
    (Q1 := fun tr out =>
             match out with
             | Returned x => tr = [Ev o x]
             | Awaiting _ => tr = [] /\ out = Awaiting o
             end).
  - apply post_call; auto.
  - intros tr1 r ->. apply Hk.
  - intros tr o' [-> [= ->]]. exact Ha.
Qed.

(** A loop: [Inv] holds of the events up to the head of every iteration. *)
Lemma post_iter {I R} (body : I -> itree vaultE (I + R)) (i : I)
    (Inv : list event -> Prop) (Q : list event -> outcome R -> Prop) :
  Inv [] ->
  (forall tr0 i, Inv tr0 ->
     post env (body i) (fun tr out =>
       match out with
       | Returned (inl _) => Inv (tr0 ++ tr)
       | Returned (inr r) => Q (tr0 ++ tr) (Returned r)
       | Awaiting o => Q (tr0 ++ tr) (Awaiting o)
       end)) ->
  post env (ITree.iter body i) Q.
Proof.
  intros H0 Hbody n s tr s' out Hr.
  change tr with ([] ++ tr). revert H0 Hr. generalize (@nil event) as tr0.
  revert i s tr. induction n as [|n IH]; intros i s tr tr0 H0 Hr;
    [discriminate|].
  rewrite (run_observe env _ _ _ _ (observe_iter body i)) in Hr.
  destruct (run_bind_inv env _ _ _ _ _ _ _ Hr)
    as [(tr1 & s1 & [i'|r] & tr2 & H1 & H2 & ->)|(o & H1 & ->)].
  - rewrite run_unfold in H2. simpl in H2. rewrite app_assoc.
    apply (IH _ _ _ _ (Hbody _ _ H0 _ _ _ _ _ H1) H2).
  - rewrite run_unfold in H2. simpl in H2. inversion H2; subst.
    rewrite app_nil_r. apply (Hbody _ _ H0 _ _ _ _ _ H1).
  - apply (Hbody _ _ H0 _ _ _ _ _ H1).
Qed.

Lemma post_ret_bind {R T} (r : R) (k : R -> itree vaultE T)
    (Q : list event -> outcome T -> Prop) :
  post env (k r) Q -> post env (ITree.bind (Ret r) k) Q.
Proof.
  intros H n s tr s' out Hr. apply (H n s tr s' out). rewrite <- Hr.
  apply run_observe. now rewrite observe_bind.
Qed.

Lemma post_panic {R} (Q : list event -> outcome R -> Prop) :
  Q [] (Awaiting Panic) -> post env panic Q.
Proof.
  intros H. unfold panic. apply post_do; [intros x; destruct x|exact H].
Qed.

Lemma post_panic_bind {R T} (k : R -> itree vaultE T)
    (Q : list event -> outcome T -> Prop) :
  Q [] (Awaiting Panic) -> post env (ITree.bind panic k) Q.
Proof.
  intros H.
  apply post_bind with (Q1 := fun tr out => tr = [] /\ out = Awaiting Panic).
  - now apply post_panic.
  - intros tr1 r [_ [=]].
  - intros tr o [-> [= ->]]. exact H.
Qed.

Lemma post_weaken {R} (t : itree vaultE R)
    (Q Q' : list event -> outcome R -> Prop) :
  post env t Q -> (forall tr out, Q tr out -> Q' tr out) -> post env t Q'.
Proof. intros H HQ n s tr s' out Hr. exact (HQ _ _ (H _ _ _ _ _ Hr)). Qed.

End Post.

(** ** The loops stop only when the context is cancelled *)

Lemma cancelled_base u : cancelled [Ev Select Done; Ev TimerStop u].
Proof. destruct u. now exists []. Qed.

Lemma cancelled_cons e tr : cancelled tr -> cancelled (e :: tr).
Proof. intros [tr0 ->]. now exists (e :: tr0). Qed.

Lemma cancelled_app tr0 tr : cancelled tr -> cancelled (tr0 ++ tr).
Proof. intros [tr1 ->]. exists (tr0 ++ tr1). now rewrite app_assoc. Qed.

Ltac cancelled_tac :=
  repeat first [ apply cancelled_base | apply cancelled_cons
               | apply cancelled_app ].

(** Walks through a loop-free block: every answer of the environment is
    considered, and what is left are the facts about its ends. *)
Ltac post_walk :=
  repeat lazymatch goal with
    | |- post _ (Ret _) _ => apply post_ret
    | |- post ?env (ITree.bind (call ?o) ?k) ?Q =>
        apply (post_do env o k Q); [intros ?; cbv beta|]
    | |- post ?env (call ?o) ?Q => apply (post_call env o Q); [intros ?|]
    | |- post _ (match ?x with _ => _ end) _ => destruct x
    | |- post _ (ITree.bind (match ?x with _ => _ end) _) _ => destruct x
    | |- post _ (ITree.bind (Ret _) _) _ => apply post_ret_bind
    | |- post _ (ITree.bind panic _) _ => apply post_panic_bind
    | |- post _ panic _ => apply post_panic
    end.

Section Exits.

Context {St : Type} (env : St -> forall o : op, option (St * resp o)).
Variable int_seconds : Duration -> Z.

Lemma wait_unsealed_exits : post env wait_unsealed returns_cancelled.
Proof.
  unfold wait_unsealed. apply post_iter with (Inv := fun _ => True); [exact I|].
  intros tr0 [] _. unfold wait_unsealed_body, returns_cancelled.
  post_walk; try easy; intros _; cancelled_tac.
Qed.

Lemma renew_loop_exits ttl :
  post env (renew_loop int_seconds ttl) returns_cancelled.
Proof.
  unfold renew_loop. apply post_iter with (Inv := fun _ => True); [exact I|].
  intros tr0 [] _. unfold renew_body, returns_cancelled.
  post_walk; try easy; intros _; cancelled_tac.
Qed.

Lemma authenticate_post login : post env (authenticate login) (fun _ _ => True).
Proof. unfold authenticate. post_walk; exact I. Qed.

Lemma reauthenticate_exits login ttl :
  post env (reauthenticate login ttl) returns_cancelled.
Proof.
  unfold reauthenticate, returns_cancelled. destruct (ttl =? 0).
  - eapply post_bind; [apply authenticate_post| |easy].
    intros tr1 [[token ttl'] err] _. post_walk; try easy.
    intros _. cancelled_tac.
  - post_walk. easy.
Qed.

Lemma renew_exits ttl :
  post env (renew int_seconds ttl)
    (fun tr out => out = Returned (inr tt) -> cancelled tr).
Proof.
  unfold renew. apply post_do; [intros []|easy].
  eapply post_bind; [apply renew_loop_exits| |easy].
  intros tr1 [[]| |] H1; post_walk; try easy.
  intros _. rewrite app_nil_r. apply cancelled_cons. now apply H1.
Qed.

Lemma renewAuthToken_exits login ttl :
  post env (renewAuthToken int_seconds login ttl)
    (fun tr out => match out with Returned _ => cancelled tr | _ => True end).
Proof.
  unfold renewAuthToken.
  apply post_iter with (Inv := fun _ => True); [exact I|].
  intros tr0 ttl0 _. unfold renewAuthToken_body.
  eapply post_bind; [apply wait_unsealed_exits| |easy].
  intros tr1 [[]| |] H1; [|post_walk; exact I
                          |post_walk; apply cancelled_app;
                           rewrite app_nil_r; now apply H1].
  eapply post_bind; [apply reauthenticate_exits| |easy].
  intros tr2 [ttl1| |] H2; [|post_walk; exact I
                            |post_walk; rewrite app_nil_r;
                             apply cancelled_app, cancelled_app;
                             now apply H2].
  eapply post_weaken; [apply renew_exits|].
  intros tr3 [[|[]]|] H3; try exact I.
  apply cancelled_app, cancelled_app, cancelled_app. now apply H3.
Qed.

Lemma checkStatus_exits delay :
  post env (checkStatus delay)
    (fun tr out => match out with Returned _ => cancelled tr | _ => True end).
Proof.
  unfold checkStatus.
  apply post_iter with (Inv := fun _ => True); [exact I|].
  intros tr0 timer _. unfold checkStatus_body.
  post_walk; try exact I; cancelled_tac.
Qed.

End Exits.

(** ** What the monitor touches *)

Lemma post_iter_events {St} (env : St -> forall o : op, option (St * resp o))
    {I R} (body : I -> itree vaultE (I + R)) (i : I) (P : event -> Prop) :
  (forall i, post env (body i) (fun tr _ => Forall P tr)) ->
  post env (ITree.iter body i) (fun tr _ => Forall P tr).
Proof.
  intros H. apply post_iter with (Inv := Forall P); [constructor|].
  intros tr0 i0 H0. eapply post_weaken; [apply H|].
  intros tr [[|]|] Htr; apply Forall_app; auto.
Qed.

Lemma checkStatus_events {St} (env : St -> forall o : op, option (St * resp o))
    delay :
  post env (checkStatus delay)
    (fun tr _ => Forall (fun e => is_monitor_op (op_of e) = true) tr).
Proof.
  unfold checkStatus. apply post_iter_events. intros timer.
  unfold checkStatus_body. post_walk; repeat constructor.
Qed.

(** ** The key operations *)

Section KeyOperations.

Variable ErrKeyNotFound ErrKeyExists : error.

(** C2: on a connected store whose [sealed] flag is set, [Get], [Create] and
    [Delete] return [errSealed] (a 403 error) after reading the two fields of
    the store; no request is sent to Vault and the backend is left as it
    was. *)
Theorem sealed_store_fails_without_io (s : Store.t) (key v : string)
    (c : vaultapi.Client) (kv : gmap string (gmap string value)) :
  let w := {| w_client := Some c; w_sealed := true; w_kv := kv |} in
  let tr := [Ev LoadClient (Some c); Ev LoadSealed true] in
  vault_requests tr = [] /\
  errSealed = KesError 403 "key store is sealed" /\
  evaluates world (Get ErrKeyNotFound s key) w tr w
    (Returned ("", Some errSealed)) /\
  evaluates world (Create ErrKeyExists s key v) w tr w
    (Returned (Some errSealed)) /\
  evaluates world (Delete s key) w tr w (Returned (Some errSealed)).
Proof.
  intros w tr. split; [reflexivity|]. split; [reflexivity|].
  unfold Get, Create, Delete. repeat split; ev_run.
Qed.

(** C3: what [Get] makes of the answer to its read, on a connected and
    unsealed store.  An error of the request is logged with the path and
    returned as it is; no error and no entry is [ErrKeyNotFound]; an entry
    without the field of the key (or with [nil] in it), or with a field that
    is no string, is logged with the path and fails; otherwise the string in
    the field is returned. *)
Theorem Get_outcomes (s : Store.t) (key : string) (c : vaultapi.Client)
    (tok : string) (rest : list answer) :
  let ss sc :=
    {| client := Some c; sealed := false; token := tok; script := sc |} in
  let get r tr out :=
    evaluates session (Get ErrKeyNotFound s key) (ss (ASecret r :: rest))
      ([Ev LoadClient (Some c); Ev LoadSealed false;
        Ev (LogicalRead (location s key)) r] ++ tr)
      (ss rest) (Returned out) in
  let logged line := [Ev (Printf (Store.ErrorLog s) line) tt] in
  (forall entry err,
      get (entry, Some err)
        (logged ("vault: failed to read '" +:+ location s key +:+ "': "
                 +:+ Error err))
        ("", Some err)) /\
  get (None, None) [] ("", Some ErrKeyNotFound) /\
  (forall entry,
      vaultapi.Data entry !! key = None \/
      vaultapi.Data entry !! key = Some VNil ->
      get (Some entry, None)
        (logged ("vault: failed to read '" +:+ location s key
                 +:+ "': entry exists but no secret key is present"))
        ("", Some (ErrorString "vault: K/V entry does not contain any value"))) /\
  (forall entry x,
      vaultapi.Data entry !! key = Some x ->
      x <> VNil -> (forall v, x <> VString v) ->
      get (Some entry, None)
        (logged ("vault: failed to read '" +:+ location s key
                 +:+ "': invalid K/V format"))
        ("", Some (ErrorString "vault: invalid K/V entry format"))) /\
  (forall entry v,
      vaultapi.Data entry !! key = Some (VString v) ->
      get (Some entry, None) [] (v, None)).
Proof.
  intros ss get logged. unfold get, logged, ss, Get, logf.
  split; [|split; [|split; [|split]]].
  - intros [entry|] err; ev_run.
  - ev_run.
  - intros entry H. do 3 ev_step.
    destruct H as [H|H]; rewrite H; ev_run.
  - intros entry x H Hnil Hstr. do 3 ev_step. rewrite H.
    destruct x as [|v|n|b]; [now elim Hnil|now elim (Hstr v)|ev_run|ev_run].
  - intros entry v H. do 3 ev_step. rewrite H. ev_run.
Qed.

(** C1: [Create] reads the path before it writes.  On a connected, unsealed
    store and a backend that keeps what it is given: when the path holds
    nothing, the first [Create] writes the entry [{key: v}] and a second
    [Create] of the key (with any value) fails with [ErrKeyExists] after its
    read, writes nothing, and the path still holds the [v] of the first call;
    when the path already holds an entry, [Create] fails with [ErrKeyExists]
    and changes nothing.  Whatever the backend is, when the read fails
    [Create] logs and returns the error of the read and sends no write. *)
Theorem Create_twice (s : Store.t) (key v v' : string) (c : vaultapi.Client)
    (kv : gmap string (gmap string value)) (tok : string)
    (rest : list answer) :
  let path := location s key in
  let w kv := {| w_client := Some c; w_sealed := false; w_kv := kv |} in
  let loads := [Ev LoadClient (Some c); Ev LoadSealed false] in
  (kv !! path = None ->
   let kv1 := <[ path := {[ key := VString v ]} ]> kv in
   evaluates world (Create ErrKeyExists s key v) (w kv)
     (loads ++ [Ev (LogicalRead path) (None, None);
                Ev (LogicalWrite path {[ key := VString v ]}) (None, None)])
     (w kv1) (Returned None) /\
   evaluates world (Create ErrKeyExists s key v') (w kv1)
     (loads ++ [Ev (LogicalRead path)
                   (Some (kv_secret {[ key := VString v ]}), None)])
     (w kv1) (Returned (Some ErrKeyExists)) /\
   kv1 !! path = Some {[ key := VString v ]}) /\
  (forall d, kv !! path = Some d ->
   evaluates world (Create ErrKeyExists s key v) (w kv)
     (loads ++ [Ev (LogicalRead path) (Some (kv_secret d), None)])
     (w kv) (Returned (Some ErrKeyExists))) /\
  (forall entry err,
   evaluates session (Create ErrKeyExists s key v)
     {| client := Some c; sealed := false; token := tok;
        script := ASecret (entry, Some err) :: rest |}
     (loads ++ [Ev (LogicalRead path) (entry, Some err);
                Ev (Printf (Store.ErrorLog s)
                      ("vault: failed to create '" +:+ path +:+ "': "
                       +:+ Error err)) tt])
     {| client := Some c; sealed := false; token := tok; script := rest |}
     (Returned (Some err))).
Proof.
  intros path w loads. unfold loads, w, path, Create, logf.
  split; [|split].
  - intros H. cbv zeta. split; [|split].
    + do 2 ev_step.
      eapply ev_do; [cbn [world w_kv w_client w_sealed]; rewrite H;
                     reflexivity|].
      cbv beta iota. ev_run.
    + do 2 ev_step.
      eapply ev_do; [cbn [world w_kv w_client w_sealed];
                     rewrite lookup_insert_eq; reflexivity|].
      cbv beta iota. ev_run.
    + apply lookup_insert_eq.
  - intros d H. do 2 ev_step.
    eapply ev_do; [cbn [world w_kv w_client w_sealed]; rewrite H;
                   reflexivity|].
    cbv beta iota. ev_run.
  - intros [entry|] err; ev_run.
Qed.

(** C8, as the code has it: every error a key operation returns reaches the
    caller as the value the operation ends with, and [reported] says what is
    logged: the failed request and the unusable entry are logged in a line
    that names the path, the missing connection is logged without a path,
    and [errSealed], [ErrKeyNotFound] and [ErrKeyExists] are not logged. *)
Theorem errors_reported (s : Store.t) (key v : string) (ss ss' : Session)
    (tr : list event) (e : error) :
  let rep := reported ErrKeyNotFound ErrKeyExists (location s key) tr e in
  (forall r, evaluates session (Get ErrKeyNotFound s key) ss tr ss'
               (Returned (r, Some e)) -> rep) /\
  (evaluates session (Create ErrKeyExists s key v) ss tr ss'
     (Returned (Some e)) -> rep) /\
  (evaluates session (Delete s key) ss tr ss' (Returned (Some e)) -> rep).
Proof.
  assert (Hm : forall pre post,
             mentions (location s key) (pre +:+ location s key +:+ post))
    by (intros pre post; now exists pre, post).
  cbv zeta. unfold reported, Get, Create, Delete, log, logf.
  split; [intros r H|split; intros H];
    destruct ss as [[c|] [|] tok [|[r0|r0|r0|[[entry|] [err|]]|st w] rest]];
    try match type of H with
        | evaluates _ (ITree.bind _ _)
            {| script := ASecret (None, None) :: _ |} _ _ (Returned (Some _)) =>
            destruct rest as [|[r1|r1|r1|[x1 [err1|]]|st1 w1] rest']
        end;
    try (destruct (vaultapi.Data entry !! key) as [[|x|n|b]|] eqn:E);
    ev_forward H; injection Hout; intros; subst e;
    try (left; repeat split; reflexivity);
    try (right; left; repeat split; reflexivity);
    try (right; right; left; split; [auto|split; reflexivity]);
    right; right; right;
    (split; [first [left; reflexivity
                   |right; split; [reflexivity|unfold malformed_entry; auto]]
            |eexists; split; [reflexivity|apply Hm]]).
Qed.

End KeyOperations.

(** ** The availability monitor *)

Section Monitor.

Variables (d : Duration) (c : option vaultapi.Client) (tok : string).

Lemma checkStatus_tick timer b h rest :
  h <> (None, None) ->
  evaluates session (checkStatus_body d timer)
    (Build_Session c b tok (AHealth h :: AWake None Fired :: rest))
    (tick_events d (negb timer) h ++ [Ev Select Fired])
    (Build_Session c (reported_sealed h b) tok rest)
    (Returned (inl true)).
Proof.
  intros Hh. unfold checkStatus_body.
  destruct h as [[status|] [err|]], timer; try (now elim Hh); ev_compute.
Qed.

Lemma checkStatus_ticks hs : forall first b,
  Forall (fun h => h <> (None, None)) hs ->
  evaluates session (ITree.iter (checkStatus_body d) (negb first))
    (Build_Session c b tok (ticks_script hs))
    (ticks_events d first hs)
    (Build_Session c (sealed_after b hs) tok [])
    (Awaiting SysHealth).
Proof.
  induction hs as [|h hs IH]; intros first b Hok.
  - apply ev_iter_awaiting. unfold checkStatus_body. ev_compute.
  - inversion Hok as [|? ? Hh Hhs]; subst.
    change (ticks_events d first (h :: hs)) with
      (tick_events d first h ++ Ev Select Fired :: ticks_events d false hs).
    change (Ev Select Fired :: ticks_events d false hs) with
      ([Ev Select Fired] ++ ticks_events d false hs).
    rewrite app_assoc.
    eapply ev_iter_again.
    + rewrite <- (negb_involutive first) at 2.
      apply checkStatus_tick, Hh.
    + apply (IH false), Hhs.
Qed.

End Monitor.

(** ** The token renewal engine *)

Section Engine.

Variable int_seconds : Duration -> Z.
Variables (login : AppRole) (c : option vaultapi.Client).

Lemma wait_unsealed_open tok sc :
  evaluates session wait_unsealed (Build_Session c false tok sc)
    [Ev LoadSealed false] (Build_Session c false tok sc)
    (Returned (Proceeds tt)).
Proof. apply ev_iter_exit. unfold wait_unsealed_body. ev_compute. Qed.

Lemma wait_unsealed_poll tok stored sc tr s' out :
  evaluates session wait_unsealed
    (Build_Session c (match stored with Some b => b | None => true end)
       tok sc) tr s' out ->
  evaluates session wait_unsealed
    (Build_Session c true tok (AWake stored Fired :: sc)) (poll ++ tr) s' out.
Proof.
  intros H. eapply ev_iter_again; [|exact H].
  unfold wait_unsealed_body. ev_compute.
Qed.

Lemma wait_unsealed_polls tok rest : forall n,
  evaluates session wait_unsealed
    (Build_Session c true tok
       (repeat (AWake None Fired) n ++ AWake (Some false) Fired :: rest))
    (polls (S n) ++ [Ev LoadSealed false])
    (Build_Session c false tok rest) (Returned (Proceeds tt)).
Proof.
  induction n as [|n IH].
  - change (polls 1) with (poll ++ []). rewrite app_nil_r.
    apply wait_unsealed_poll, wait_unsealed_open.
  - change (polls (S (S n))) with (poll ++ polls (S n)).
    rewrite <- app_assoc. apply wait_unsealed_poll, IH.
Qed.

Lemma wait_unsealed_polls_cancelled tok stored rest : forall n,
  evaluates session wait_unsealed
    (Build_Session c true tok
       (repeat (AWake None Fired) n ++ AWake stored Done :: rest))
    (polls n ++ [Ev LoadSealed true; Ev (NewTimer (1 * Second)) tt;
                 Ev Select Done; Ev TimerStop tt])
    (Build_Session c (match stored with Some b => b | None => true end)
       tok rest) (Returned Returns).
Proof.
  induction n as [|n IH].
  - apply ev_iter_exit. unfold wait_unsealed_body. ev_compute.
  - change (polls (S n)) with (poll ++ polls n).
    rewrite <- app_assoc. apply wait_unsealed_poll, IH.
Qed.

Lemma wait_unsealed_pending tok :
  evaluates session wait_unsealed (Build_Session c true tok [])
    [Ev LoadSealed true; Ev (NewTimer (1 * Second)) tt]
    (Build_Session c true tok []) (Awaiting Select).
Proof. apply ev_iter_awaiting. unfold wait_unsealed_body. ev_compute. Qed.

(** One renewal that succeeds, and one that fails. *)
Lemma renew_body_renewed ttl b tok sec rest :
  renewal_failed (Some sec, None) = false ->
  evaluates session (renew_body int_seconds ttl tt)
    (Build_Session c b tok (AWake None Fired :: ASecret (Some sec, None)
                            :: rest))
    [Ev Select Fired; Ev (RenewSelf (int_seconds ttl)) (Some sec, None);
     Ev (TimerReset (fst (vaultapi.TokenTTL sec) ÷ 2)) tt]
    (Build_Session c b tok rest) (Returned (inl tt)).
Proof.
  unfold renewal_failed, no_lease, not_renewable, zero_ttl, renew_body.
  destruct (vaultapi.TokenIsRenewable sec) as [[|] [e1|]] eqn:E1,
           (vaultapi.TokenTTL sec) as [t [e2|]] eqn:E2;
    cbn [failed fst negb orb]; try discriminate.
  intros Ht. ev_compute.
Qed.

Lemma renew_body_failed ttl b tok a rest :
  renewal_failed a = true ->
  evaluates session (renew_body int_seconds ttl tt)
    (Build_Session c b tok (AWake None Fired :: ASecret a :: rest))
    [Ev Select Fired; Ev (RenewSelf (int_seconds ttl)) a]
    (Build_Session c b tok rest) (Returned (inr (Proceeds tt))).
Proof.
  unfold renewal_failed, no_lease, not_renewable, zero_ttl, renew_body.
  destruct a as [[sec|] [e|]]; try (intros _; ev_compute).
  destruct (vaultapi.TokenIsRenewable sec) as [[|] [e1|]] eqn:E1,
           (vaultapi.TokenTTL sec) as [t [e2|]] eqn:E2;
    cbn [failed fst negb orb]; try discriminate; intros Ht; ev_compute.
Qed.

Lemma renew_loop_renewed ttl b tok rest tr s' out : forall oks,
  Forall (fun sec => renewal_failed (Some sec, None) = false) oks ->
  evaluates session (renew_loop int_seconds ttl)
    (Build_Session c b tok rest) tr s' out ->
  evaluates session (renew_loop int_seconds ttl)
    (Build_Session c b tok (renewals_script oks ++ rest))
    (renewals_events (int_seconds ttl) oks ++ tr) s' out.
Proof.
  induction oks as [|sec oks IH]; intros Hok H; [exact H|].
  inversion Hok as [|? ? Hsec Hoks]; subst.
  cbn [renewals_script renewals_events flat_map].
  rewrite <- !app_assoc. eapply ev_iter_again.
  - cbn [app]. now apply renew_body_renewed.
  - now apply IH.
Qed.

End Engine.

Section EngineRuns.

Variable int_seconds : Duration -> Z.
Variables (login : AppRole) (c : option vaultapi.Client).

(** The renewal of a lease of [ttl]: renewals that succeed, and then one
    that fails, no answer yet, or the cancellation. *)
Lemma renew_fails ttl b tok oks a rest :
  Forall (fun sec => renewal_failed (Some sec, None) = false) oks ->
  renewal_failed a = true ->
  evaluates session (renew int_seconds ttl)
    (Build_Session c b tok
       (renewals_script oks ++ AWake None Fired :: ASecret a :: rest))
    (Ev (NewTimer (ttl ÷ 2)) tt :: renewals_events (int_seconds ttl) oks
     ++ [Ev Select Fired; Ev (RenewSelf (int_seconds ttl)) a])
    (Build_Session c b tok rest) (Returned (inl 0)).
Proof.
  intros Hoks Ha. unfold renew. eapply ev_do; [reflexivity|].
  cbn [client sealed token script].
  rewrite <- (app_nil_r (_ ++ [_; _])). eapply ev_bind.
  - apply renew_loop_renewed; [exact Hoks|].
    apply ev_iter_exit. now apply renew_body_failed.
  - apply ev_ret.
Qed.

Lemma renew_pending ttl b tok oks :
  Forall (fun sec => renewal_failed (Some sec, None) = false) oks ->
  evaluates session (renew int_seconds ttl)
    (Build_Session c b tok (renewals_script oks))
    (Ev (NewTimer (ttl ÷ 2)) tt :: renewals_events (int_seconds ttl) oks)
    (Build_Session c b tok []) (Awaiting Select).
Proof.
  intros Hoks. unfold renew. eapply ev_do; [reflexivity|].
  cbn [client sealed token script]. apply ev_bind_awaiting.
  rewrite <- (app_nil_r (renewals_script oks)).
  rewrite <- (app_nil_r (renewals_events _ oks)).
  apply renew_loop_renewed; [exact Hoks|].
  apply ev_iter_awaiting. unfold renew_body. ev_compute.
Qed.

(** The engine without a lease, unsealed: its next action is the login. *)
Lemma engine_login_pending tok :
  evaluates session (ITree.iter (renewAuthToken_body int_seconds login) 0) (Build_Session c false tok [])
    [Ev LoadSealed false] (Build_Session c false tok [])
    (Awaiting (login_request login)).
Proof.
  apply ev_iter_awaiting. unfold renewAuthToken_body.
  rewrite <- (app_nil_r [_]). eapply ev_bind; [apply wait_unsealed_open|].
  cbv beta iota. unfold reauthenticate, authenticate.
  change (0 =? 0) with true. cbv iota. ev_compute.
Qed.

(** A login that fails, and the retry delay after it. *)
Lemma reauthenticate_failed b tok r stored w rest :
  login_failed r = true ->
  evaluates session (reauthenticate login 0)
    (Build_Session c b tok (ASecret r :: AWake stored w :: rest))
    ([Ev (login_request login) r; Ev (NewTimer (Retry login)) tt;
      Ev Select w]
     ++ match w with Done => [Ev TimerStop tt] | Fired => [] end)
    (Build_Session c (match stored with Some b' => b' | None => b end)
       tok rest)
    (Returned (match w with Done => Returns | Fired => Continues end)).
Proof.
  unfold login_failed, reauthenticate, authenticate.
  change (0 =? 0) with true. cbv iota.
  destruct r as [[sec|] [e|]], w; try discriminate;
    try (intros _; ev_compute);
    destruct (vaultapi.TokenID sec) as [tk [e1|]] eqn:E1,
             (vaultapi.TokenTTL sec) as [t [e2|]] eqn:E2;
    try discriminate; intros _; ev_compute.
Qed.

Lemma engine_login_failed tok r stored rest tr s' out :
  login_failed r = true ->
  evaluates session (ITree.iter (renewAuthToken_body int_seconds login) 0)
    (Build_Session c (match stored with Some b => b | None => false end)
       tok rest) tr s' out ->
  evaluates session (ITree.iter (renewAuthToken_body int_seconds login) 0)
    (Build_Session c false tok (ASecret r :: AWake stored Fired :: rest))
    ([Ev LoadSealed false; Ev (login_request login) r;
      Ev (NewTimer (Retry login)) tt; Ev Select Fired] ++ tr) s' out.
Proof.
  intros Hr H. eapply ev_iter_again; [|exact H].
  unfold renewAuthToken_body.
  change [Ev LoadSealed false; Ev (login_request login) r;
          Ev (NewTimer (Retry login)) tt; Ev Select Fired]
    with ([Ev LoadSealed false]
          ++ ([Ev (login_request login) r; Ev (NewTimer (Retry login)) tt;
               Ev Select Fired] ++ []) ++ []).
  eapply ev_bind; [apply wait_unsealed_open|]. cbv beta iota.
  eapply ev_bind; [now apply (reauthenticate_failed _ _ _ _ Fired)|].
  apply ev_ret.
Qed.

Lemma engine_login_cancelled tok r stored rest :
  login_failed r = true ->
  evaluates session (ITree.iter (renewAuthToken_body int_seconds login) 0)
    (Build_Session c false tok (ASecret r :: AWake stored Done :: rest))
    [Ev LoadSealed false; Ev (login_request login) r;
     Ev (NewTimer (Retry login)) tt; Ev Select Done; Ev TimerStop tt]
    (Build_Session c (match stored with Some b => b | None => false end)
       tok rest) (Returned tt).
Proof.
  intros Hr. apply ev_iter_exit. unfold renewAuthToken_body.
  change [Ev LoadSealed false; Ev (login_request login) r;
          Ev (NewTimer (Retry login)) tt; Ev Select Done; Ev TimerStop tt]
    with ([Ev LoadSealed false]
          ++ ([Ev (login_request login) r; Ev (NewTimer (Retry login)) tt;
               Ev Select Done] ++ [Ev TimerStop tt]) ++ []).
  eapply ev_bind; [apply wait_unsealed_open|]. cbv beta iota.
  eapply ev_bind; [now apply (reauthenticate_failed _ _ _ _ Done)|].
  apply ev_ret.
Qed.

Lemma engine_logins_failed tok rest tr s' out : forall rs,
  Forall (fun r => login_failed r = true) rs ->
  evaluates session (ITree.iter (renewAuthToken_body int_seconds login) 0) (Build_Session c false tok rest) tr s' out ->
  evaluates session (ITree.iter (renewAuthToken_body int_seconds login) 0)
    (Build_Session c false tok (failed_logins_script rs ++ rest))
    (failed_logins_events login rs ++ tr) s' out.
Proof.
  induction rs as [|r rs IH]; intros Hrs H; [exact H|].
  inversion Hrs as [|? ? Hr Hrs']; subst.
  cbn [failed_logins_script failed_logins_events flat_map].
  rewrite <- !app_assoc. cbn [app].
  apply (engine_login_failed tok r None); [exact Hr|]. now apply IH.
Qed.

(** A login that succeeds: the token is set. *)
Lemma reauthenticate_succeeded b tok sec tk ttl rest :
  vaultapi.TokenID sec = (tk, None) ->
  vaultapi.TokenTTL sec = (ttl, None) ->
  evaluates session (reauthenticate login 0)
    (Build_Session c b tok (ASecret (Some sec, None) :: rest))
    [Ev (login_request login) (Some sec, None); Ev (SetToken tk) tt]
    (Build_Session c b tk rest) (Returned (Proceeds ttl)).
Proof.
  intros E1 E2. unfold reauthenticate, authenticate.
  change (0 =? 0) with true. cbv iota. ev_compute.
Qed.

Lemma reauthenticate_skipped b tok ttl rest :
  ttl <> 0 ->
  evaluates session (reauthenticate login ttl) (Build_Session c b tok rest)
    [] (Build_Session c b tok rest) (Returned (Proceeds ttl)).
Proof.
  intros H. unfold reauthenticate. apply Z.eqb_neq in H. rewrite H.
  apply ev_ret.
Qed.

End EngineRuns.

(** ** The claims about the engine *)

Section EngineClaims.

Variable int_seconds : Duration -> Z.

(** The outcomes of a renewal attempt of the engine holding a lease of
    [ttl], after any number of renewals that succeeded.  The engine holds
    the lease because it was started with it, or because its login was
    answered with it.  When the answer to the renewal fails in one of the
    three ways ([no_lease], [not_renewable], [zero_ttl]), the engine reads
    [sealed] and its next request is the login.  After every renewal that
    does not fail the timer is reset to half of the new TTL and the engine
    waits for it; the request after that wait is again a renewal, for the
    seconds of [ttl], the TTL the loop was entered with, whatever the new
    TTL is. *)
Theorem renewal_outcomes (login : AppRole) (c : option vaultapi.Client)
    (tok : string) (ttl : Duration) (oks : list vaultapi.Secret) :
  let L := default_retry login in
  let inc := int_seconds ttl in
  let holds start pre_script pre_events tok' :=
    (forall a, renewal_failed a = true ->
       evaluates session (renewAuthToken int_seconds login start)
         {| client := c; sealed := false; token := tok;
            script := pre_script ++ renewals_script oks
                      ++ [AWake None Fired; ASecret a] |}
         (pre_events ++ Ev (NewTimer (ttl ÷ 2)) tt :: renewals_events inc oks
          ++ [Ev Select Fired; Ev (RenewSelf inc) a; Ev LoadSealed false])
         {| client := c; sealed := false; token := tok'; script := [] |}
         (Awaiting (login_request L))) /\
    evaluates session (renewAuthToken int_seconds login start)
      {| client := c; sealed := false; token := tok;
         script := pre_script ++ renewals_script oks |}
      (pre_events ++ Ev (NewTimer (ttl ÷ 2)) tt :: renewals_events inc oks)
      {| client := c; sealed := false; token := tok'; script := [] |}
      (Awaiting Select) in
  Forall (fun sec => renewal_failed (Some sec, None) = false) oks ->
  (ttl <> 0 -> holds ttl [] [Ev LoadSealed false] tok) /\
  (forall sec0 tk,
      vaultapi.TokenID sec0 = (tk, None) ->
      vaultapi.TokenTTL sec0 = (ttl, None) ->
      holds 0 [ASecret (Some sec0, None)]
        [Ev LoadSealed false; Ev (login_request L) (Some sec0, None);
         Ev (SetToken tk) tt] tk).
Proof.
  intros L inc holds Hoks. unfold holds, renewAuthToken. fold L.
  assert (Hbody : forall start pre_script pre_events tok' a,
    renewal_failed a = true ->
    evaluates session (reauthenticate L start)
      {| client := c; sealed := false; token := tok;
         script := pre_script ++ renewals_script oks
                   ++ AWake None Fired :: ASecret a :: [] |}
      pre_events
      {| client := c; sealed := false; token := tok';
         script := renewals_script oks
                   ++ AWake None Fired :: ASecret a :: [] |}
      (Returned (Proceeds ttl)) ->
    evaluates session (ITree.iter (renewAuthToken_body int_seconds L) start)
      {| client := c; sealed := false; token := tok;
         script := pre_script ++ renewals_script oks
                   ++ [AWake None Fired; ASecret a] |}
      ((Ev LoadSealed false :: pre_events) ++ Ev (NewTimer (ttl ÷ 2)) tt
       :: renewals_events inc oks
       ++ [Ev Select Fired; Ev (RenewSelf inc) a; Ev LoadSealed false])
      {| client := c; sealed := false; token := tok'; script := [] |}
      (Awaiting (login_request L))).
  { intros start pre_script pre_events tok' a Ha Hre.
    eapply ev_shaped; [|reflexivity|].
    - eapply ev_iter_again.
      + unfold renewAuthToken_body.
        eapply ev_bind; [apply wait_unsealed_open|]. cbv beta iota.
        eapply ev_bind; [exact Hre|]. cbv beta iota.
        apply renew_fails; [exact Hoks|exact Ha].
      + apply engine_login_pending.
    - list_shape. }
  assert (Hwait : forall start pre_script pre_events tok',
    evaluates session (reauthenticate L start)
      {| client := c; sealed := false; token := tok;
         script := pre_script ++ renewals_script oks |}
      pre_events
      {| client := c; sealed := false; token := tok';
         script := renewals_script oks |}
      (Returned (Proceeds ttl)) ->
    evaluates session (ITree.iter (renewAuthToken_body int_seconds L) start)
      {| client := c; sealed := false; token := tok;
         script := pre_script ++ renewals_script oks |}
      ((Ev LoadSealed false :: pre_events) ++ Ev (NewTimer (ttl ÷ 2)) tt
       :: renewals_events inc oks)
      {| client := c; sealed := false; token := tok'; script := [] |}
      (Awaiting Select)).
  { intros start pre_script pre_events tok' Hre.
    eapply ev_shaped; [|reflexivity|].
    - apply ev_iter_awaiting. unfold renewAuthToken_body.
      eapply ev_bind; [apply wait_unsealed_open|]. cbv beta iota.
      eapply ev_bind; [exact Hre|]. cbv beta iota.
      apply renew_pending, Hoks.
    - list_shape. }
  split; [intros Httl|intros sec0 tk E1 E2]; split.
  - intros a Ha. apply (Hbody ttl [] [] tok a Ha).
    now apply reauthenticate_skipped.
  - apply (Hwait ttl [] [] tok). now apply reauthenticate_skipped.
  - intros a Ha.
    apply (Hbody 0 [ASecret (Some sec0, None)]
             [Ev (login_request L) (Some sec0, None); Ev (SetToken tk) tt]
             tk a Ha).
    now apply reauthenticate_succeeded.
  - apply (Hwait 0 [ASecret (Some sec0, None)]
             [Ev (login_request L) (Some sec0, None); Ev (SetToken tk) tt] tk).
    now apply reauthenticate_succeeded.
Qed.

Lemma polls_no_request n : vault_requests (polls n) = [].
Proof. induction n as [|n IH]; [reflexivity|exact IH]. Qed.

(** C5, as the code has it: when the engine finds [sealed] set at the head
    of its loop it sends no request.  It reads the flag again after every
    second; it is still waiting after [n] polls when the flag stays set, it
    returns when the context is cancelled, and once the flag is cleared it
    goes on with the TTL it had: to the login when that is zero, to the wait
    of half the TTL before a renewal otherwise. *)
Theorem sealed_pause (login : AppRole) (ttl : Duration)
    (c : option vaultapi.Client) (tok : string) (n : nat) :
  let L := default_retry login in
  let s b sc := {| client := c; sealed := b; token := tok; script := sc |} in
  evaluates session (renewAuthToken int_seconds login ttl)
    (s true (repeat (AWake None Fired) n))
    (polls n ++ [Ev LoadSealed true; Ev (NewTimer (1 * Second)) tt])
    (s true []) (Awaiting Select) /\
  evaluates session (renewAuthToken int_seconds login ttl)
    (s true (repeat (AWake None Fired) n ++ [AWake None Done]))
    (polls n ++ [Ev LoadSealed true; Ev (NewTimer (1 * Second)) tt;
                 Ev Select Done; Ev TimerStop tt])
    (s true []) (Returned tt) /\
  evaluates session (renewAuthToken int_seconds login ttl)
    (s true (repeat (AWake None Fired) n ++ [AWake (Some false) Fired]))
    (polls (S n) ++ Ev LoadSealed false
     :: (if ttl =? 0 then [] else [Ev (NewTimer (ttl ÷ 2)) tt]))
    (s false [])
    (Awaiting (if ttl =? 0 then login_request L else Select)) /\
  vault_requests (polls (S n)) = [].
Proof.
  intros L s. unfold s, renewAuthToken. fold L.
  split; [|split; [|split; [|apply polls_no_request]]].
  - apply ev_iter_awaiting. unfold renewAuthToken_body.
    apply ev_bind_awaiting.
    induction n as [|n IH]; [apply wait_unsealed_pending|].
    cbn [repeat app polls]. rewrite <- app_assoc.
    apply (wait_unsealed_poll c tok None), IH.
  - apply ev_iter_exit. unfold renewAuthToken_body.
    eapply ev_shaped;
      [eapply ev_bind;
       [apply (wait_unsealed_polls_cancelled c tok None)|apply ev_ret]
      |reflexivity|apply app_nil_r].
  - apply ev_iter_awaiting.
    unfold renewAuthToken_body, reauthenticate, authenticate, renew.
    destruct (ttl =? 0).
    + eapply ev_shaped; [|reflexivity|].
      * eapply ev_bind; [apply wait_unsealed_polls|]. cbv beta iota.
        ev_compute.
      * list_shape.
    + eapply ev_shaped; [|reflexivity|].
      * eapply ev_bind; [apply wait_unsealed_polls|]. cbv beta iota.
        do 2 ev_step.
        apply ev_bind_awaiting, ev_iter_awaiting. unfold renew_body.
        ev_compute.
      * list_shape.
Qed.

(** C6: the engine without a lease, unsealed.  Each login that fails is
    followed by the retry delay and, when the timer fires, by the next
    login: after any number of failures the engine is about to log in
    again.  It returns from the delay when the context is cancelled, and no
    run of the engine returns in any other way than after a [select] that
    saw the cancellation.  The delay is [login.Retry], or five seconds when
    that is zero. *)
Theorem login_retried (login : AppRole) (c : option vaultapi.Client)
    (tok : string) (rs : list (option vaultapi.Secret * option error)) :
  let L := default_retry login in
  let s sc := {| client := c; sealed := false; token := tok; script := sc |} in
  Forall (fun r => login_failed r = true) rs ->
  evaluates session (renewAuthToken int_seconds login 0)
    (s (failed_logins_script rs))
    (failed_logins_events L rs ++ [Ev LoadSealed false])
    (s []) (Awaiting (login_request L)) /\
  (forall r, login_failed r = true ->
     evaluates session (renewAuthToken int_seconds login 0)
       (s (failed_logins_script rs ++ [ASecret r; AWake None Done]))
       (failed_logins_events L rs
        ++ [Ev LoadSealed false; Ev (login_request L) r;
            Ev (NewTimer (Retry L)) tt; Ev Select Done; Ev TimerStop tt])
       (s []) (Returned tt)) /\
  Retry L = (if Retry login =? 0 then 5 * Second else Retry login) /\
  (forall St (env : St -> forall o : op, option (St * resp o)) fuel ttl s0
          tr s',
      run env fuel (renewAuthToken int_seconds login ttl) s0
      = Some (tr, s', Returned tt) ->
      cancelled tr).
Proof.
  intros L s Hrs. unfold s, renewAuthToken. fold L.
  split; [|split; [|split]].
  - eapply ev_shaped;
      [apply engine_logins_failed; [exact Hrs|apply engine_login_pending]
      |f_equal; apply app_nil_r|reflexivity].
  - intros r Hr. apply engine_logins_failed; [exact Hrs|].
    now apply (engine_login_cancelled int_seconds L c tok r None).
  - unfold L, default_retry. now destruct (Retry login =? 0).
  - intros St env fuel ttl s0 tr s' H.
    exact (renewAuthToken_exits env int_seconds login ttl _ _ _ _ _ H).
Qed.


End EngineClaims.

(** ** The claims about the monitor and about [Authenticate] *)

(** C7: the ticks of the monitor.  Whatever the health queries [hs] are
    answered (short of a nil response without an error), after them the
    [sealed] flag holds the value of the last query that succeeded, or its
    old value if none did, the client and the token are what they were, and
    the monitor is about to query again; the timer is set to the configured
    delay, or to ten seconds when that is zero.  In every environment the
    monitor only queries the health, stores into [sealed] and handles its
    timer and its context, and it returns only after a [select] that saw the
    cancellation. *)
Theorem monitor_ticks (delay : Duration) (c : option vaultapi.Client)
    (b : bool) (tok : string)
    (hs : list (option vaultapi.HealthResponse * option error)) :
  Forall (fun h => h <> (None, None)) hs ->
  evaluates session (checkStatus delay)
    {| client := c; sealed := b; token := tok; script := ticks_script hs |}
    (ticks_events (default_delay delay) true hs)
    {| client := c; sealed := sealed_after b hs; token := tok; script := [] |}
    (Awaiting SysHealth) /\
  default_delay delay = (if delay =? 0 then 10 * Second else delay) /\
  (forall St (env : St -> forall o : op, option (St * resp o)) fuel s tr s'
          out,
      run env fuel (checkStatus delay) s = Some (tr, s', out) ->
      Forall (fun e => is_monitor_op (op_of e) = true) tr /\
      (forall r, out = Returned r -> cancelled tr)).
Proof.
  intros Hhs. split; [|split; [reflexivity|]].
  - apply (checkStatus_ticks (default_delay delay) c tok hs true b Hhs).
  - intros St env fuel s tr s' out H. split.
    + exact (checkStatus_events env delay _ _ _ _ _ H).
    + intros r ->. exact (checkStatus_exits env delay _ _ _ _ _ H).
Qed.

(** C9: [Authenticate] on a server that reports itself sealed.  When the
    client is built and the health query answers [sealed], [Authenticate]
    stores the client and the flag, sends no login and sets no token, starts
    the monitor with the configured delay and the engine with a TTL of zero,
    and returns nil.  The engine started so polls the flag and, once it is
    cleared, logs in. *)
Theorem Authenticate_sealed (int_seconds : Duration -> Z) (s : Store.t)
    (fi : FileInfo) (cl : vaultapi.Client) (c0 : option vaultapi.Client)
    (b0 : bool) (tok : string) (rest : list answer) :
  let status := {| vaultapi.Sealed := true |} in
  let tr :=
    stat_events s fi
    ++ Ev (NewClient (Store.Addr s) (tls_config s fi)) (Some cl, None)
    :: namespace_events s
    ++ [Ev (StoreClient (Some cl)) tt; Ev SysHealth (Some status, None);
        Ev (StoreSealed true) tt;
        Ev (Go (go_checkStatus (Store.StatusPingAfter s))) tt;
        Ev (Go (go_renewAuthToken (Store.AppRole s) 0)) tt] in
  let started sc :=
    {| client := Some cl; sealed := true; token := tok; script := sc |} in
  evaluates session (Authenticate s)
    {| client := c0; sealed := b0; token := tok;
       script := stat_script s fi
                 ++ AClient (Some cl, None) :: AHealth (Some status, None)
                 :: rest |}
    tr (started rest) (Returned None) /\
  vault_requests tr = [SysHealth] /\
  evaluates session (renewAuthToken int_seconds (Store.AppRole s) 0)
    (started [])
    [Ev LoadSealed true; Ev (NewTimer (1 * Second)) tt]
    (started []) (Awaiting Select) /\
  evaluates session (renewAuthToken int_seconds (Store.AppRole s) 0)
    (started [AWake (Some false) Fired])
    [Ev LoadSealed true; Ev (NewTimer (1 * Second)) tt; Ev Select Fired;
     Ev LoadSealed false]
    {| client := Some cl; sealed := false; token := tok; script := [] |}
    (Awaiting (login_request (default_retry (Store.AppRole s)))).
Proof.
  intros status tr started. unfold tr, started, status.
  split; [|split; [|split]].
  - unfold Authenticate, stat_script, stat_events, tls_config,
      namespace_events.
    destruct (String.eqb (Store.CAPath s) ""),
             (String.eqb (Store.Namespace s) ""), fi as [[|]];
      cbn [IsDir app]; cbv beta iota; ev_compute.
  - unfold stat_events, namespace_events.
    now destruct (String.eqb (Store.CAPath s) ""),
                 (String.eqb (Store.Namespace s) "").
  - unfold renewAuthToken. apply ev_iter_awaiting.
    unfold renewAuthToken_body.
    apply ev_bind_awaiting, wait_unsealed_pending.
  - unfold renewAuthToken. apply ev_iter_awaiting.
    unfold renewAuthToken_body, reauthenticate, authenticate.
    change (0 =? 0) with true. cbv iota.
    eapply ev_shaped; [|reflexivity|].
    + eapply ev_bind;
        [apply (wait_unsealed_polls (Some cl) tok [] 0%nat)|].
      cbv beta iota. ev_compute.
    + reflexivity.
Qed.

(** ** Where the code departs from the specification *)

(** C5 fails: with a lease of ten seconds the engine reads [sealed] once,
    before its first wait.  The monitor sets the flag during that wait; the
    engine renews all the same, and after that renewal it waits and asks for
    the next one, with the flag set all along. *)
Lemma renewal_while_sealed :
  ~ suspended_while_sealed
      (renewAuthToken example_int_seconds (Store.AppRole example_store)
         (10 * Second))
      (example_session false
         [AWake (Some true) Fired;
          ASecret (Some (example_lease (10 * Second)), None);
          AWake None Fired]).
Proof.
  intros H.
  assert (Hrun : evaluates session
            (renewAuthToken example_int_seconds (Store.AppRole example_store)
               (10 * Second))
            (example_session false
               [AWake (Some true) Fired;
                ASecret (Some (example_lease (10 * Second)), None);
                AWake None Fired])
            [Ev LoadSealed false; Ev (NewTimer (5 * Second)) tt;
             Ev Select Fired;
             Ev (RenewSelf 10) (Some (example_lease (10 * Second)), None);
             Ev (TimerReset (5 * Second)) tt; Ev Select Fired]
            (example_session true []) (Awaiting (RenewSelf 10)))
    by (exists 30%nat; vm_compute; reflexivity).
  specialize (H _ _ _ Hrun eq_refl). discriminate H.
Qed.

(** C4: the renewal that follows a renewal.  The engine holds a lease of
    ten seconds and its first renewal is answered with a renewable lease of
    twenty seconds.  It resets its timer to ten seconds, half of the new
    TTL; but when that timer fires it asks again for a renewal of ten
    seconds, not of twenty.  The [ttl] that [RenewSelf] is given is the one
    the loop was entered with: the TTL read from the secret is declared in
    the body of the loop ([ttl, err := secret.TokenTTL()]) and is gone at the
    end of the iteration, whereas the login assigns the outer [ttl]
    ([token, ttl, err = s.authenticate(login)]). *)
Lemma renewal_asks_entry_ttl :
  renewal_failed (Some (example_lease (20 * Second)), None) = false /\
  example_int_seconds (fst (vaultapi.TokenTTL (example_lease (20 * Second))))
  = 20 /\
  evaluates session
    (renewAuthToken example_int_seconds example_login (10 * Second))
    (example_session false
       [AWake None Fired; ASecret (Some (example_lease (20 * Second)), None);
        AWake None Fired])
    [Ev LoadSealed false; Ev (NewTimer (5 * Second)) tt; Ev Select Fired;
     Ev (RenewSelf 10) (Some (example_lease (20 * Second)), None);
     Ev (TimerReset (10 * Second)) tt; Ev Select Fired]
    (example_session false []) (Awaiting (RenewSelf 10)).
Proof.
  split; [reflexivity|]. split; [reflexivity|].
  exists 30%nat. vm_compute. reflexivity.
Qed.

(** C8 fails: [Get] on a sealed store returns [errSealed], and nothing is
    logged. *)
Lemma sealed_error_not_logged :
  ~ (forall tr w' r e,
        evaluates world (Get example_ErrKeyNotFound example_store "db-key")
          (example_world true ∅) tr w' (Returned (r, Some e)) ->
        exists line,
          In line (log_lines tr) /\ mentions example_path line).
Proof.
  intros H.
  assert (Hrun : evaluates world
            (Get example_ErrKeyNotFound example_store "db-key")
            (example_world true ∅)
            [Ev LoadClient (Some 1%nat); Ev LoadSealed true]
            (example_world true ∅) (Returned ("", Some errSealed)))
    by (unfold Get, example_world; ev_run).
  destruct (H _ _ _ _ Hrun) as (line & Hin & _). exact Hin.
Qed.

(** ** The theorems at work *)

Lemma Create_twice_witness :
  (∅ : gmap string (gmap string value)) !! example_path = None /\
  evaluates world (Create example_ErrKeyExists example_store "db-key" "other")
    (example_world false (<[ example_path := example_entry ]> ∅))
    [Ev LoadClient (Some 1%nat); Ev LoadSealed false;
     Ev (LogicalRead example_path) (Some (kv_secret example_entry), None)]
    (example_world false (<[ example_path := example_entry ]> ∅))
    (Returned (Some example_ErrKeyExists)) /\
  (<[ example_path := example_entry ]> ∅ : gmap string (gmap string value))
    !! example_path = Some example_entry.
Proof.
  assert (H : (∅ : gmap string (gmap string value)) !! example_path = None)
    by reflexivity.
  split; [exact H|].
  destruct (Create_twice example_ErrKeyExists example_store "db-key"
              "secret123" "other" 1%nat ∅ "" []) as [Habsent _].
  destruct (Habsent H) as (_ & H2 & H3). split; [exact H2|exact H3].
Defined.

Lemma Get_outcomes_witness :
  (example_entry !! "db-key" = Some (VString "secret123") /\
   evaluates session (Get example_ErrKeyNotFound example_store "db-key")
     (example_session false [ASecret (Some (kv_secret example_entry), None)])
     (example_loads
      ++ [Ev (LogicalRead example_path) (Some (kv_secret example_entry), None)])
     (example_session false []) (Returned ("secret123", None))) /\
  ((∅ : gmap string value) !! "db-key" = None /\
   evaluates session (Get example_ErrKeyNotFound example_store "db-key")
     (example_session false [ASecret (Some (kv_secret ∅), None)])
     (example_loads
      ++ [Ev (LogicalRead example_path) (Some (kv_secret ∅), None);
          Ev (Printf None
                ("vault: failed to read '" +:+ example_path
                 +:+ "': entry exists but no secret key is present")) tt])
     (example_session false [])
     (Returned
        ("", Some (ErrorString "vault: K/V entry does not contain any value")))) /\
  (({[ "db-key" := VNumber 7 ]} : gmap string value) !! "db-key"
   = Some (VNumber 7) /\
   evaluates session (Get example_ErrKeyNotFound example_store "db-key")
     (example_session false
        [ASecret (Some (kv_secret {[ "db-key" := VNumber 7 ]}), None)])
     (example_loads
      ++ [Ev (LogicalRead example_path)
            (Some (kv_secret {[ "db-key" := VNumber 7 ]}), None);
          Ev (Printf None
                ("vault: failed to read '" +:+ example_path
                 +:+ "': invalid K/V format")) tt])
     (example_session false [])
     (Returned ("", Some (ErrorString "vault: invalid K/V entry format")))).
Proof.
  destruct (Get_outcomes example_ErrKeyNotFound example_store "db-key" 1%nat
              "s.token" []) as (_ & _ & Hmissing & Hformat & Hvalue).
  assert (H1 : example_entry !! "db-key" = Some (VString "secret123"))
    by reflexivity.
  assert (H2 : (∅ : gmap string value) !! "db-key" = None) by reflexivity.
  assert (H3 : ({[ "db-key" := VNumber 7 ]} : gmap string value) !! "db-key"
               = Some (VNumber 7)) by reflexivity.
  split; [split|split; split].
  - exact H1.
  - exact (Hvalue (kv_secret example_entry) "secret123" H1).
  - exact H2.
  - exact (Hmissing (kv_secret ∅) (or_introl H2)).
  - exact H3.
  - refine (Hformat (kv_secret {[ "db-key" := VNumber 7 ]}) (VNumber 7) H3
              _ _); [discriminate|intros v; discriminate].
Defined.

Lemma errors_reported_witness :
  (evaluates session (Get example_ErrKeyNotFound example_store "db-key")
     (example_session false [ASecret example_failing])
     (example_loads
      ++ [Ev (LogicalRead example_path) example_failing;
          Ev (Printf None ("vault: failed to read '" +:+ example_path
                           +:+ "': " +:+ Error example_error)) tt])
     (example_session false []) (Returned ("", Some example_error)) /\
   reported example_ErrKeyNotFound example_ErrKeyExists example_path
     (example_loads
      ++ [Ev (LogicalRead example_path) example_failing;
          Ev (Printf None ("vault: failed to read '" +:+ example_path
                           +:+ "': " +:+ Error example_error)) tt])
     example_error) /\
  (evaluates session
     (Create example_ErrKeyExists example_store "db-key" "secret123")
     (example_session false [ASecret (Some (kv_secret example_entry), None)])
     (example_loads
      ++ [Ev (LogicalRead example_path) (Some (kv_secret example_entry), None)])
     (example_session false []) (Returned (Some example_ErrKeyExists)) /\
   reported example_ErrKeyNotFound example_ErrKeyExists example_path
     (example_loads
      ++ [Ev (LogicalRead example_path) (Some (kv_secret example_entry), None)])
     example_ErrKeyExists) /\
  (evaluates session (Delete example_store "db-key")
     (example_session false [ASecret example_failing])
     (example_loads
      ++ [Ev (LogicalDelete example_path) example_failing;
          Ev (Printf None ("vault: failed to delete '" +:+ example_path
                           +:+ "': " +:+ Error example_error)) tt])
     (example_session false []) (Returned (Some example_error)) /\
   reported example_ErrKeyNotFound example_ErrKeyExists example_path
     (example_loads
      ++ [Ev (LogicalDelete example_path) example_failing;
          Ev (Printf None ("vault: failed to delete '" +:+ example_path
                           +:+ "': " +:+ Error example_error)) tt])
     example_error).
Proof.
  assert (HG : evaluates session
                 (Get example_ErrKeyNotFound example_store "db-key")
                 (example_session false [ASecret example_failing])
                 (example_loads
                  ++ [Ev (LogicalRead example_path) example_failing;
                      Ev (Printf None
                            ("vault: failed to read '" +:+ example_path
                             +:+ "': " +:+ Error example_error)) tt])
                 (example_session false [])
                 (Returned ("", Some example_error)))
    by (exists 10%nat; reflexivity).
  assert (HC : evaluates session
                 (Create example_ErrKeyExists example_store "db-key"
                    "secret123")
                 (example_session false
                    [ASecret (Some (kv_secret example_entry), None)])
                 (example_loads
                  ++ [Ev (LogicalRead example_path)
                        (Some (kv_secret example_entry), None)])
                 (example_session false [])
                 (Returned (Some example_ErrKeyExists)))
    by (exists 10%nat; reflexivity).
  assert (HD : evaluates session (Delete example_store "db-key")
                 (example_session false [ASecret example_failing])
                 (example_loads
                  ++ [Ev (LogicalDelete example_path) example_failing;
                      Ev (Printf None
                            ("vault: failed to delete '" +:+ example_path
                             +:+ "': " +:+ Error example_error)) tt])
                 (example_session false [])
                 (Returned (Some example_error)))
    by (exists 10%nat; reflexivity).
  split; [split|split; split].
  - exact HG.
  - exact (proj1 (errors_reported example_ErrKeyNotFound example_ErrKeyExists
                    example_store "db-key" "secret123" _ _ _ _) _ HG).
  - exact HC.
  - exact (proj1 (proj2 (errors_reported example_ErrKeyNotFound
                           example_ErrKeyExists example_store "db-key"
                           "secret123" _ _ _ _)) HC).
  - exact HD.
  - exact (proj2 (proj2 (errors_reported example_ErrKeyNotFound
                           example_ErrKeyExists example_store "db-key"
                           "secret123" _ _ _ _)) HD).
Defined.

Lemma renewal_outcomes_witness :
  Forall (fun sec => renewal_failed (Some sec, None) = false)
    example_renewals /\
  10 * Second <> 0 /\
  renewal_failed example_expired = true /\
  evaluates session
    (renewAuthToken example_int_seconds example_login (10 * Second))
    (example_session false
       ([] ++ renewals_script example_renewals
        ++ [AWake None Fired; ASecret example_expired]))
    ([Ev LoadSealed false]
     ++ Ev (NewTimer (10 * Second ÷ 2)) tt
     :: renewals_events (example_int_seconds (10 * Second)) example_renewals
     ++ [Ev Select Fired;
         Ev (RenewSelf (example_int_seconds (10 * Second))) example_expired;
         Ev LoadSealed false])
    (example_session false [])
    (Awaiting (login_request (default_retry example_login))) /\
  vaultapi.TokenID (example_lease (10 * Second)) = ("s.token", None) /\
  vaultapi.TokenTTL (example_lease (10 * Second)) = (10 * Second, None) /\
  evaluates session (renewAuthToken example_int_seconds example_login 0)
    (example_session false
       ([ASecret (Some (example_lease (10 * Second)), None)]
        ++ renewals_script example_renewals))
    ([Ev LoadSealed false;
      Ev (login_request (default_retry example_login))
        (Some (example_lease (10 * Second)), None);
      Ev (SetToken "s.token") tt]
     ++ Ev (NewTimer (10 * Second ÷ 2)) tt
     :: renewals_events (example_int_seconds (10 * Second)) example_renewals)
    (example_session false []) (Awaiting Select).
Proof.
  assert (H1 : Forall (fun sec => renewal_failed (Some sec, None) = false)
                 example_renewals) by (repeat constructor).
  assert (H2 : 10 * Second <> 0) by (unfold Second; lia).
  assert (H3 : renewal_failed example_expired = true) by reflexivity.
  destruct (renewal_outcomes example_int_seconds example_login (Some 1%nat)
              "s.token" (10 * Second) example_renewals H1)
    as [Hstart Hlogin].
  destruct (Hstart H2) as [Hfail _].
  destruct (Hlogin (example_lease (10 * Second)) "s.token" eq_refl eq_refl)
    as [_ Hwait].
  split; [exact H1|]. split; [exact H2|]. split; [exact H3|].
  split; [exact (Hfail example_expired H3)|].
  split; [reflexivity|]. split; [reflexivity|]. exact Hwait.
Defined.

Lemma login_retried_witness :
  Forall (fun r => login_failed r = true) example_failed_logins /\
  evaluates session (renewAuthToken example_int_seconds example_login 0)
    (example_session false (failed_logins_script example_failed_logins))
    (failed_logins_events (default_retry example_login) example_failed_logins
     ++ [Ev LoadSealed false])
    (example_session false [])
    (Awaiting (login_request (default_retry example_login))) /\
  Retry (default_retry example_login) = 5 * Second /\
  run session 40 (renewAuthToken example_int_seconds example_login 0)
    (example_session false [ASecret example_failing; AWake None Done])
  = Some (example_cancelled_login, example_session false [], Returned tt) /\
  cancelled example_cancelled_login.
Proof.
  assert (H1 : Forall (fun r => login_failed r = true) example_failed_logins)
    by (repeat constructor).
  assert (H2 : run session 40
                 (renewAuthToken example_int_seconds example_login 0)
                 (example_session false
                    [ASecret example_failing; AWake None Done])
               = Some (example_cancelled_login, example_session false [],
                       Returned tt)) by reflexivity.
  destruct (login_retried example_int_seconds example_login (Some 1%nat)
              "s.token" example_failed_logins H1)
    as (Hagain & _ & Hretry & Hexit).
  split; [exact H1|]. split; [exact Hagain|]. split; [exact Hretry|].
  split; [exact H2|]. exact (Hexit _ session _ _ _ _ _ H2).
Defined.

Lemma monitor_ticks_witness :
  Forall (fun h => h <> (None, None)) example_health /\
  evaluates session (checkStatus 0)
    (example_session false (ticks_script example_health))
    (ticks_events (default_delay 0) true example_health)
    (example_session (sealed_after false example_health) [])
    (Awaiting SysHealth) /\
  sealed_after false example_health = true /\
  run session 20 (checkStatus 0)
    (example_session false
       [AHealth (Some {| vaultapi.Sealed := true |}, None); AWake None Done])
  = Some (example_cancelled_tick, example_session true [], Returned tt) /\
  Forall (fun e => is_monitor_op (op_of e) = true) example_cancelled_tick /\
  cancelled example_cancelled_tick.
Proof.
  assert (H1 : Forall (fun h => h <> (None, None)) example_health)
    by (repeat constructor; discriminate).
  assert (H2 : run session 20 (checkStatus 0)
                 (example_session false
                    [AHealth (Some {| vaultapi.Sealed := true |}, None);
                     AWake None Done])
               = Some (example_cancelled_tick, example_session true [],
                       Returned tt)) by reflexivity.
  destruct (monitor_ticks 0 (Some 1%nat) false "s.token" example_health H1)
    as (Hticks & _ & Hall).
  destruct (Hall _ session _ _ _ _ _ H2) as [Hevents Hexit].
  split; [exact H1|]. split; [exact Hticks|]. split; [reflexivity|].
  split; [exact H2|]. split; [exact Hevents|]. exact (Hexit tt eq_refl).
Defined.

(** * Further properties of the store *)

(** ** The key operations on a backend that keeps what it is given *)

Lemma world_read_absent w path :
  w_kv w !! path = None ->
  world w (LogicalRead path) = Some (w, (None, None)).
Proof. intros H. cbn [world]. now rewrite H. Qed.

Lemma world_read_entry w path d :
  w_kv w !! path = Some d ->
  world w (LogicalRead path) = Some (w, (Some (kv_secret d), None)).
Proof. intros H. cbn [world]. now rewrite H. Qed.

(** Runs a key operation against the backend, given what the path of the
    key holds. *)
Ltac world_step :=
  first
    [ lazymatch goal with
      | |- evaluates world (ITree.bind (call (LogicalRead ?p)) ?k) _ _ _ _ =>
          eapply (ev_do world (LogicalRead p) k);
          [first [ apply world_read_entry; eassumption
                 | apply world_read_absent; eassumption ]|];
          cbv beta iota; cbn [vaultapi.Data kv_secret]
      end
    | ev_step
    | match goal with
      | H : ?l = _ |- context [match ?l with _ => _ end] =>
          rewrite H; cbv beta iota
      end ].

Ltac world_forward H :=
  match type of H with
  | evaluates ?env ?t ?s _ _ _ =>
      let Hc := fresh "Hc" in
      eassert (Hc : evaluates env t s _ _ _) by (repeat world_step);
      let Hout := fresh "Hout" in
      destruct (evaluates_det env _ _ _ _ _ _ _ _ H Hc) as (-> & -> & Hout);
      clear Hc
  end.

Lemma location_inj s k1 k2 : location s k1 = location s k2 -> k1 = k2.
Proof.
  unfold location. intros H.
  now repeat apply String.app_inj in H.
Qed.

Section Backend.

Variable ErrKeyNotFound ErrKeyExists : error.
Variables (s : Store.t) (c : vaultapi.Client).

Lemma Create_stores key v kv :
  kv !! location s key = None ->
  evaluates world (Create ErrKeyExists s key v)
    {| w_client := Some c; w_sealed := false; w_kv := kv |}
    (loads c ++ [Ev (LogicalRead (location s key)) (None, None);
                 Ev (LogicalWrite (location s key) {[ key := VString v ]})
                   (None, None)])
    {| w_client := Some c; w_sealed := false;
       w_kv := <[ location s key := {[ key := VString v ]} ]> kv |}
    (Returned None).
Proof.
  intros H. unfold Create, loads. do 2 ev_step.
  eapply ev_do; [now apply world_read_absent|]. cbv beta iota. ev_run.
Qed.

Lemma Create_refused key v kv d :
  kv !! location s key = Some d ->
  evaluates world (Create ErrKeyExists s key v)
    {| w_client := Some c; w_sealed := false; w_kv := kv |}
    (loads c ++ [Ev (LogicalRead (location s key)) (Some (kv_secret d), None)])
    {| w_client := Some c; w_sealed := false; w_kv := kv |}
    (Returned (Some ErrKeyExists)).
Proof.
  intros H. unfold Create, loads. do 2 ev_step.
  eapply ev_do; [now apply world_read_entry|]. cbv beta iota. ev_run.
Qed.

Lemma Get_stored key v kv d :
  kv !! location s key = Some d -> d !! key = Some (VString v) ->
  evaluates world (Get ErrKeyNotFound s key)
    {| w_client := Some c; w_sealed := false; w_kv := kv |}
    (loads c ++ [Ev (LogicalRead (location s key)) (Some (kv_secret d), None)])
    {| w_client := Some c; w_sealed := false; w_kv := kv |}
    (Returned (v, None)).
Proof.
  intros H Hd. unfold Get, loads. do 2 ev_step.
  eapply ev_do; [now apply world_read_entry|]. cbv beta iota.
  cbn [vaultapi.Data kv_secret]. rewrite Hd. ev_run.
Qed.

Lemma Get_no_field key kv d :
  kv !! location s key = Some d -> d !! key = None ->
  evaluates world (Get ErrKeyNotFound s key)
    {| w_client := Some c; w_sealed := false; w_kv := kv |}
    (loads c
     ++ [Ev (LogicalRead (location s key)) (Some (kv_secret d), None);
         Ev (Printf (Store.ErrorLog s)
               ("vault: failed to read '" +:+ location s key
                +:+ "': entry exists but no secret key is present")) tt])
    {| w_client := Some c; w_sealed := false; w_kv := kv |}
    (Returned
       ("", Some (ErrorString "vault: K/V entry does not contain any value"))).
Proof.
  intros H Hd. unfold Get, logf, loads. repeat world_step.
Qed.

Lemma Get_absent key kv :
  kv !! location s key = None ->
  evaluates world (Get ErrKeyNotFound s key)
    {| w_client := Some c; w_sealed := false; w_kv := kv |}
    (loads c ++ [Ev (LogicalRead (location s key)) (None, None)])
    {| w_client := Some c; w_sealed := false; w_kv := kv |}
    (Returned ("", Some ErrKeyNotFound)).
Proof.
  intros H. unfold Get, loads. do 2 ev_step.
  eapply ev_do; [now apply world_read_absent|]. cbv beta iota. ev_run.
Qed.

Lemma Delete_removes key kv :
  evaluates world (Delete s key)
    {| w_client := Some c; w_sealed := false; w_kv := kv |}
    (loads c ++ [Ev (LogicalDelete (location s key)) (None, None)])
    {| w_client := Some c; w_sealed := false;
       w_kv := delete (location s key) kv |}
    (Returned None).
Proof. unfold Delete, loads. ev_run. Qed.

(** X1: a key that was created can be read back.  On a connected, unsealed
    store whose path holds nothing, [Create] followed by [Get] of the same
    key returns the value that was created, for every key and value (the
    empty string included). *)
Theorem Create_then_Get (key v : string)
    (kv : gmap string (gmap string value)) :
  let path := location s key in
  let entry : gmap string value := {[ key := VString v ]} in
  let w kv := {| w_client := Some c; w_sealed := false; w_kv := kv |} in
  kv !! path = None ->
  evaluates world
    (Create ErrKeyExists s key v ;; Get ErrKeyNotFound s key) (w kv)
    ((loads c ++ [Ev (LogicalRead path) (None, None);
                  Ev (LogicalWrite path entry) (None, None)])
     ++ loads c ++ [Ev (LogicalRead path) (Some (kv_secret entry), None)])
    (w (<[ path := entry ]> kv)) (Returned (v, None)).
Proof.
  intros path entry w H. unfold w, path, entry.
  eapply ev_bind; [now apply Create_stores|].
  apply Get_stored with (d := {[ key := VString v ]});
    [apply lookup_insert_eq|apply lookup_singleton_eq].
Qed.

(** X2: [Delete] succeeds whether or not the key exists, and it removes the
    entry of that key only.  After it, [Get] of the key fails with
    [ErrKeyNotFound], a second [Delete] succeeds as well, and every other
    path of the backend holds what it held. *)
Theorem Delete_then_Get (key : string)
    (kv : gmap string (gmap string value)) :
  let path := location s key in
  let w kv := {| w_client := Some c; w_sealed := false; w_kv := kv |} in
  let deleted := loads c ++ [Ev (LogicalDelete path) (None, None)] in
  evaluates world (Delete s key ;; Get ErrKeyNotFound s key) (w kv)
    (deleted ++ loads c ++ [Ev (LogicalRead path) (None, None)])
    (w (delete path kv)) (Returned ("", Some ErrKeyNotFound)) /\
  evaluates world (Delete s key ;; Delete s key) (w kv)
    (deleted ++ deleted) (w (delete path kv)) (Returned None) /\
  (forall p, p <> path -> delete path kv !! p = kv !! p).
Proof.
  intros path w deleted. unfold w, path, deleted. split; [|split].
  - eapply ev_bind; [apply Delete_removes|].
    apply Get_absent, lookup_delete_eq.
  - rewrite <- (delete_delete_eq kv (location s key)).
    eapply ev_bind; apply Delete_removes.
  - intros p Hp. now apply lookup_delete_ne.
Qed.

(** X3: the value of a key is replaced by deleting the key and creating it
    again: whatever the backend holds, [Delete], [Create] and [Get] in a row
    return the value of that [Create]. *)
Theorem Delete_then_Create (key v : string)
    (kv : gmap string (gmap string value)) :
  let path := location s key in
  let entry : gmap string value := {[ key := VString v ]} in
  let w kv := {| w_client := Some c; w_sealed := false; w_kv := kv |} in
  evaluates world
    (Delete s key ;; Create ErrKeyExists s key v ;; Get ErrKeyNotFound s key)
    (w kv)
    ((loads c ++ [Ev (LogicalDelete path) (None, None)])
     ++ (loads c ++ [Ev (LogicalRead path) (None, None);
                     Ev (LogicalWrite path entry) (None, None)])
     ++ loads c ++ [Ev (LogicalRead path) (Some (kv_secret entry), None)])
    (w (<[ path := entry ]> kv)) (Returned (v, None)).
Proof.
  intros path entry w. unfold w, path, entry.
  rewrite <- (insert_delete_eq kv).
  eapply ev_bind; [apply Delete_removes|].
  eapply ev_bind; [apply Create_stores, lookup_delete_eq|].
  apply Get_stored with (d := {[ key := VString v ]});
    [apply lookup_insert_eq|apply lookup_singleton_eq].
Qed.

(** [Get] looks at the client, the flag and the one path of its key. *)
Lemma Get_depends_on_path key w w' tr w1 out :
  w_client w' = w_client w -> w_sealed w' = w_sealed w ->
  w_kv w' !! location s key = w_kv w !! location s key ->
  evaluates world (Get ErrKeyNotFound s key) w tr w1 out ->
  evaluates world (Get ErrKeyNotFound s key) w' tr w' out.
Proof.
  destruct w as [cl b kv], w' as [cl' b' kv'].
  cbn [w_client w_sealed w_kv]. intros -> -> Hkv H.
  unfold Get, log, logf in *.
  destruct cl as [cl|]; [|world_forward H; subst out; repeat world_step].
  destruct b; [world_forward H; subst out; repeat world_step|].
  destruct (kv !! location s key) as [d|] eqn:E;
    [destruct (d !! key) as [[|x|n|b]|] eqn:Ed|];
    world_forward H; subst out; repeat world_step.
Qed.

(** X4: the keys of a store do not interfere.  Two keys of the same store
    have different paths, and what [Get] of one key returns is the same
    after another key was created or deleted. *)
Theorem keys_are_separate (key key' v : string)
    (kv : gmap string (gmap string value)) (tr : list event) (w1 : World)
    (out : outcome (string * option error)) :
  let w kv := {| w_client := Some c; w_sealed := false; w_kv := kv |} in
  key' <> key ->
  evaluates world (Get ErrKeyNotFound s key) (w kv) tr w1 out ->
  location s key' <> location s key /\
  (kv !! location s key' = None ->
   evaluates world
     (Create ErrKeyExists s key' v ;; Get ErrKeyNotFound s key) (w kv)
     ((loads c ++ [Ev (LogicalRead (location s key')) (None, None);
                   Ev (LogicalWrite (location s key') {[ key' := VString v ]})
                     (None, None)]) ++ tr)
     (w (<[ location s key' := {[ key' := VString v ]} ]> kv)) out) /\
  evaluates world (Delete s key' ;; Get ErrKeyNotFound s key) (w kv)
    ((loads c ++ [Ev (LogicalDelete (location s key')) (None, None)]) ++ tr)
    (w (delete (location s key') kv)) out.
Proof.
  intros w Hne H. unfold w in *.
  assert (Hp : location s key' <> location s key)
    by (intros Hp; apply Hne; now apply location_inj in Hp).
  split; [exact Hp|]. split.
  - intros Habs. eapply ev_bind; [now apply Create_stores|].
    eapply Get_depends_on_path; [| | |exact H];
      [reflexivity|reflexivity|cbn [w_kv]; now apply lookup_insert_ne].
  - eapply ev_bind; [apply Delete_removes|].
    eapply Get_depends_on_path; [| | |exact H];
      [reflexivity|reflexivity|cbn [w_kv]; now apply lookup_delete_ne].
Qed.

(** X5: what the key operations do to the backend.  [Get] never changes
    it.  A [Create] that returns an error changes nothing, and one that
    returns nil found the path empty and has put the entry [{key: v}] there;
    a [Delete] that returns an error changes nothing, and one that returns
    nil has removed the path. *)
Theorem backend_effects (key v : string) (w w' : World) (tr : list event) :
  let path := location s key in
  (forall out, evaluates world (Get ErrKeyNotFound s key) w tr w' out ->
               w' = w) /\
  (forall e, evaluates world (Create ErrKeyExists s key v) w tr w'
               (Returned e) ->
             match e with
             | Some _ => w' = w
             | None =>
                 w_kv w !! path = None /\
  w' = {| w_client := w_client w; w_sealed := w_sealed w;
                         w_kv := <[ path := {[ key := VString v ]} ]> (w_kv w) |}
             end) /\
  (forall e, evaluates world (Delete s key) w tr w' (Returned e) ->
             match e with
             | Some _ => w' = w
             | None =>
                 w' = {| w_client := w_client w; w_sealed := w_sealed w;
                         w_kv := delete path (w_kv w) |}
             end).
Proof.
  intros path. unfold path. split; [|split].
  - intros out H.
    assert (H' := Get_depends_on_path key w w tr w' out eq_refl eq_refl
                    eq_refl H).
    now destruct (evaluates_det world _ _ _ _ _ _ _ _ H H') as (_ & -> & _).
  - intros e H. destruct w as [[cl|] [|] kv]; unfold Create, log, logf in H;
      try (world_forward H; injection Hout as ->; reflexivity).
    destruct (kv !! location s key) as [d|] eqn:E;
      world_forward H; injection Hout as ->; [reflexivity|].
    split; [exact E|reflexivity].
  - intros e H. destruct w as [[cl|] [|] kv]; unfold Delete, log, logf in H;
      world_forward H; injection Hout as ->; reflexivity.
Qed.

End Backend.

(** ** Stores whose locations are nested *)

Lemma append_assoc (a b c : string) : (a +:+ b) +:+ c = a +:+ b +:+ c.
Proof.
  induction a as [|x a IH]; [reflexivity|].
  change (String x ((a +:+ b) +:+ c) = String x (a +:+ b +:+ c)).
  now f_equal.
Qed.

Lemma length_append (a b : string) :
  String.length (a +:+ b) = (String.length a + String.length b)%nat.
Proof.
  induction a as [|x a IH]; [reflexivity|].
  change (S (String.length (a +:+ b))
          = S (String.length a + String.length b)).
  now f_equal.
Qed.

Lemma nested_key_differs (k1 k2 : string) : k2 <> k1 +:+ "/" +:+ k2.
Proof.
  intros H. apply (f_equal String.length) in H.
  rewrite !length_append in H. cbn in H. lia.
Qed.

Section Nested.

Variable ErrKeyNotFound ErrKeyExists : error.
Variable c : vaultapi.Client.

(** X6: a key that contains a slash reaches into the store of a nested
    location.  When the location of [s'] is that of [s] followed by
    [/k1], the key [k1/k2] of [s] and the key [k2] of [s'] have the same
    path; so after [s'] created [k2], the store [s] cannot create [k1/k2]
    (it exists) and cannot read it either: the entry holds the field [k2],
    not [k1/k2]. *)
Theorem nested_locations_collide (s s' : Store.t) (k1 k2 v v' : string)
    (kv : gmap string (gmap string value)) :
  let key := k1 +:+ "/" +:+ k2 in
  let path := location s' k2 in
  let entry : gmap string value := {[ k2 := VString v ]} in
  let w kv := {| w_client := Some c; w_sealed := false; w_kv := kv |} in
  let created :=
    loads c ++ [Ev (LogicalRead path) (None, None);
                Ev (LogicalWrite path entry) (None, None)] in
  Store.Location s' = Store.Location s +:+ "/" +:+ k1 ->
  kv !! path = None ->
  location s key = path /\
  evaluates world
    (Create ErrKeyExists s' k2 v ;; Create ErrKeyExists s key v') (w kv)
    (created
     ++ loads c ++ [Ev (LogicalRead path) (Some (kv_secret entry), None)])
    (w (<[ path := entry ]> kv)) (Returned (Some ErrKeyExists)) /\
  evaluates world
    (Create ErrKeyExists s' k2 v ;; Get ErrKeyNotFound s key) (w kv)
    (created
     ++ loads c
     ++ [Ev (LogicalRead path) (Some (kv_secret entry), None);
         Ev (Printf (Store.ErrorLog s)
               ("vault: failed to read '" +:+ path
                +:+ "': entry exists but no secret key is present")) tt])
    (w (<[ path := entry ]> kv))
    (Returned
       ("", Some (ErrorString "vault: K/V entry does not contain any value"))).
Proof.
  intros key path entry w created HL Habs.
  assert (Hpath : location s key = path).
  { unfold path, key, location. rewrite HL.
    now rewrite !append_assoc. }
  subst created w entry path. split; [exact Hpath|]. split.
  - eapply ev_bind; [now apply Create_stores|].
    pose proof (Create_refused ErrKeyExists s c key v'
                  (<[ location s' k2 := {[ k2 := VString v ]} ]> kv)
                  {[ k2 := VString v ]}) as Hc.
    rewrite Hpath in Hc. apply Hc, lookup_insert_eq.
  - eapply ev_bind; [now apply Create_stores|].
    pose proof (Get_no_field ErrKeyNotFound s c key
                  (<[ location s' k2 := {[ k2 := VString v ]} ]> kv)
                  {[ k2 := VString v ]}) as Hc.
    rewrite Hpath in Hc. apply Hc; [apply lookup_insert_eq|].
    apply lookup_singleton_ne, nested_key_differs.
Qed.

End Nested.

(** ** The key operations, whatever the server answers *)

Section Answers.

Variable ErrKeyNotFound ErrKeyExists : error.
Variable s : Store.t.

(** X7: a store that has no client.  Before [Authenticate] has stored a
    client, [Get], [Create] and [Delete] log [errNoConnection] to the error
    log and return it, whether [sealed] is set or not; they send no request
    and leave the answers of the server unused. *)
Theorem not_connected (key v : string) (b : bool) (tok : string)
    (sc : list answer) :
  let ss := {| client := None; sealed := b; token := tok; script := sc |} in
  let tr :=
    [Ev LoadClient None;
     Ev (Println (Store.ErrorLog s) "vault: no connection to vault server")
       tt] in
  evaluates session (Get ErrKeyNotFound s key) ss tr ss
    (Returned ("", Some errNoConnection)) /\
  evaluates session (Create ErrKeyExists s key v) ss tr ss
    (Returned (Some errNoConnection)) /\
  evaluates session (Delete s key) ss tr ss
    (Returned (Some errNoConnection)) /\
  vault_requests tr = [].
Proof.
  intros ss tr. unfold ss, tr, Get, Create, Delete, log.
  repeat split; ev_run.
Qed.

(** X8: the write of [Create].  When the read found nothing, [Create]
    writes the entry [{key: v}] to the path.  It returns nil when the write
    reports no error, whether or not Vault sends a secret back; when the
    write fails it logs the error with the path and returns it. *)
Theorem Create_write_outcomes (key v : string) (c : vaultapi.Client)
    (tok : string) (rest : list answer) (x : option vaultapi.Secret) :
  let path := location s key in
  let ss sc :=
    {| client := Some c; sealed := false; token := tok; script := sc |} in
  let written r :=
    loads c ++ [Ev (LogicalRead path) (None, None);
                Ev (LogicalWrite path {[ key := VString v ]}) r] in
  evaluates session (Create ErrKeyExists s key v)
    (ss (ASecret (None, None) :: ASecret (x, None) :: rest))
    (written (x, None)) (ss rest) (Returned None) /\
  (forall err,
     evaluates session (Create ErrKeyExists s key v)
       (ss (ASecret (None, None) :: ASecret (x, Some err) :: rest))
       (written (x, Some err)
        ++ [Ev (Printf (Store.ErrorLog s)
                  ("vault: failed to create '" +:+ path +:+ "': "
                   +:+ Error err)) tt])
       (ss rest) (Returned (Some err))).
Proof.
  intros path ss written. unfold path, ss, written, loads, Create, logf.
  split; [|intros err]; destruct x; ev_run.
Qed.

(** X9: [Delete] sends one request, the deletion of the path of the key,
    without reading the path first.  It returns nil when the request reports
    no error; when the request fails it logs the error with the path and
    returns it. *)
Theorem Delete_outcomes (key : string) (c : vaultapi.Client) (tok : string)
    (rest : list answer) (x : option vaultapi.Secret) :
  let path := location s key in
  let ss sc :=
    {| client := Some c; sealed := false; token := tok; script := sc |} in
  evaluates session (Delete s key) (ss (ASecret (x, None) :: rest))
    (loads c ++ [Ev (LogicalDelete path) (x, None)]) (ss rest)
    (Returned None) /\
  (forall err,
     evaluates session (Delete s key) (ss (ASecret (x, Some err) :: rest))
       (loads c
        ++ [Ev (LogicalDelete path) (x, Some err);
            Ev (Printf (Store.ErrorLog s)
                  ("vault: failed to delete '" +:+ path +:+ "': "
                   +:+ Error err)) tt])
       (ss rest) (Returned (Some err))).
Proof.
  intros path ss. unfold path, ss, loads, Delete, logf.
  split; [|intros err]; destruct x; ev_run.
Qed.

End Answers.

(** ** What the key operations touch *)

Lemma is_key_op_println s line :
  is_key_op s (Println (Store.ErrorLog s) line) = true.
Proof. unfold is_key_op. cbn. now apply bool_decide_eq_true_2. Qed.

Lemma is_key_op_printf s line :
  is_key_op s (Printf (Store.ErrorLog s) line) = true.
Proof. unfold is_key_op. cbn. now apply bool_decide_eq_true_2. Qed.

(** Settles what is left of a walk through a key operation. *)
Ltac key_op_tac :=
  split;
  [ repeat constructor;
    first [reflexivity | apply is_key_op_println | apply is_key_op_printf]
  | simpl; eexists; reflexivity ].

Section Frame.

Context {St : Type} (env : St -> forall o : op, option (St * resp o)).
Variable ErrKeyNotFound ErrKeyExists : error.
Variables (s : Store.t) (key v : string).

Lemma Get_frame :
  post env (Get ErrKeyNotFound s key)
    (fun tr _ =>
       Forall (fun e => is_key_op s (op_of e) = true) tr /\
       vault_requests tr `prefix_of` [LogicalRead (location s key)]).
Proof. unfold Get, log, logf. post_walk; key_op_tac. Qed.

Lemma Create_frame :
  post env (Create ErrKeyExists s key v)
    (fun tr _ =>
       Forall (fun e => is_key_op s (op_of e) = true) tr /\
       vault_requests tr
       `prefix_of` [LogicalRead (location s key);
                    LogicalWrite (location s key) {[ key := VString v ]}]).
Proof. unfold Create, log, logf. post_walk; key_op_tac. Qed.

Lemma Delete_frame :
  post env (Delete s key)
    (fun tr _ =>
       Forall (fun e => is_key_op s (op_of e) = true) tr /\
       vault_requests tr `prefix_of` [LogicalDelete (location s key)]).
Proof. unfold Delete, log, logf. post_walk; key_op_tac. Qed.

End Frame.

(** X10: what the key operations never do.  In every environment and at
    every point of a run, [Get], [Create] and [Delete] have only loaded the
    two fields of the store, written to the error log of the store and sent
    requests: they store into no field, set no token, start no goroutine and
    wait for nothing.  The requests are, in this order and at most, the read
    of the path of the key for [Get], that read and the write of
    [{key: v}] to the path for [Create], and the deletion of the path for
    [Delete]. *)
Theorem key_operations_frame (ErrKeyNotFound ErrKeyExists : error)
    (s : Store.t) (key v : string) (St : Type)
    (env : St -> forall o : op, option (St * resp o)) (fuel : nat)
    (st st' : St) (tr : list event) :
  let path := location s key in
  let touched := Forall (fun e => is_key_op s (op_of e) = true) tr in
  (forall out, run env fuel (Get ErrKeyNotFound s key) st
               = Some (tr, st', out) ->
     touched /\ vault_requests tr `prefix_of` [LogicalRead path]) /\
  (forall out, run env fuel (Create ErrKeyExists s key v) st
               = Some (tr, st', out) ->
     touched /\
     vault_requests tr
     `prefix_of` [LogicalRead path;
                  LogicalWrite path {[ key := VString v ]}]) /\
  (forall out, run env fuel (Delete s key) st = Some (tr, st', out) ->
     touched /\ vault_requests tr `prefix_of` [LogicalDelete path]).
Proof.
  intros path touched. split; [|split]; intros out H.
  - exact (Get_frame env ErrKeyNotFound s key _ _ _ _ _ H).
  - exact (Create_frame env ErrKeyExists s key v _ _ _ _ _ H).
  - exact (Delete_frame env s key _ _ _ _ _ H).
Qed.

(** Walks through a block and keeps what each case distinction found. *)
Ltac post_walk_eqn :=
  repeat lazymatch goal with
    | |- post _ (Ret _) _ => apply post_ret
    | |- post ?env (ITree.bind (call ?o) ?k) ?Q =>
        apply (post_do env o k Q); [intros ?; cbv beta|]
    | |- post ?env (call ?o) ?Q => apply (post_call env o Q); [intros ?|]
    | |- post _ (match ?x with _ => _ end) _ => destruct x eqn:?
    | |- post _ (ITree.bind (match ?x with _ => _ end) _) _ =>
        destruct x eqn:?
    | |- post _ (ITree.bind (Ret _) _) _ =>
        apply post_ret_bind; cbv beta iota
    end.

Section Confirmed.

Context {St : Type} (env : St -> forall o : op, option (St * resp o)).
Variable ErrKeyNotFound ErrKeyExists : error.
Variables (s : Store.t) (key v : string).

Lemma Get_confirmed :
  post env (Get ErrKeyNotFound s key)
    (fun tr out =>
       forall x, out = Returned (x, None) ->
       exists c entry,
         tr = loads c ++ [Ev (LogicalRead (location s key)) (Some entry, None)]
         /\ vaultapi.Data entry !! key = Some (VString x)).
Proof.
  unfold Get, log, logf. post_walk_eqn; intros value Hout; try discriminate Hout.
  injection Hout as <-. subst. now do 2 eexists.
Qed.

Lemma Create_confirmed :
  post env (Create ErrKeyExists s key v)
    (fun tr out =>
       out = Returned None ->
       exists c w,
         tr = loads c
              ++ [Ev (LogicalRead (location s key)) (None, None);
                  Ev (LogicalWrite (location s key) {[ key := VString v ]})
                    (w, None)]).
Proof.
  unfold Create, log, logf. post_walk_eqn; intros Hout; try discriminate Hout.
  subst. now do 2 eexists.
Qed.

Lemma Delete_confirmed :
  post env (Delete s key)
    (fun tr out =>
       out = Returned None ->
       exists c w,
         tr = loads c ++ [Ev (LogicalDelete (location s key)) (w, None)]).
Proof.
  unfold Delete, log, logf. post_walk_eqn; intros Hout; try discriminate Hout.
  subst. now do 2 eexists.
Qed.

End Confirmed.

(** X11: what a nil error means.  In every environment, a [Get] that
    returns a value without an error has found the store connected and
    unsealed and has read, from the path of the key, an entry that holds
    that string in the field of the key; a [Create] that returns nil has
    read the path, found nothing there, and written [{key: v}] without an
    error; a [Delete] that returns nil has sent the deletion of the path and
    was answered without an error.  These were their only events. *)
Theorem nil_error_means_done (ErrKeyNotFound ErrKeyExists : error)
    (s : Store.t) (key v : string) (St : Type)
    (env : St -> forall o : op, option (St * resp o)) (fuel : nat)
    (st st' : St) (tr : list event) :
  let path := location s key in
  (forall x, run env fuel (Get ErrKeyNotFound s key) st
             = Some (tr, st', Returned (x, None)) ->
     exists c entry,
       tr = loads c ++ [Ev (LogicalRead path) (Some entry, None)] /\
       vaultapi.Data entry !! key = Some (VString x)) /\
  (run env fuel (Create ErrKeyExists s key v) st
   = Some (tr, st', Returned None) ->
   exists c w,
     tr = loads c
          ++ [Ev (LogicalRead path) (None, None);
              Ev (LogicalWrite path {[ key := VString v ]}) (w, None)]) /\
  (run env fuel (Delete s key) st = Some (tr, st', Returned None) ->
   exists c w, tr = loads c ++ [Ev (LogicalDelete path) (w, None)]).
Proof.
  intros path. split; [|split].
  - intros x H. exact (Get_confirmed env ErrKeyNotFound s key _ _ _ _ _ H x
                         eq_refl).
  - intros H. exact (Create_confirmed env ErrKeyExists s key v _ _ _ _ _ H
                       eq_refl).
  - intros H. exact (Delete_confirmed env s key _ _ _ _ _ H eq_refl).
Qed.

(** X12: [Get] returns a value or an error, never both.  In every
    environment, when [Get] returns an error the string it returns with it
    is empty. *)
Theorem Get_error_has_no_value (ErrKeyNotFound : error) (s : Store.t)
    (key : string) (St : Type)
    (env : St -> forall o : op, option (St * resp o)) (fuel : nat)
    (st st' : St) (tr : list event) (x : string) (e : error) :
  run env fuel (Get ErrKeyNotFound s key) st
  = Some (tr, st', Returned (x, Some e)) ->
  x = "".
Proof.
  intros H.
  assert (Hp : post env (Get ErrKeyNotFound s key)
                 (fun _ out =>
                    forall x e, out = Returned (x, Some e) -> x = "")).
  { unfold Get, log, logf.
    post_walk; intros x' e' Hout; try discriminate Hout;
      now injection Hout as <- _. }
  exact (Hp _ _ _ _ _ H x e eq_refl).
Qed.

(** ** [authenticate] and [Authenticate] *)

Lemma authenticate_run (login : AppRole) (c : option vaultapi.Client)
    (b : bool) (tok : string) (rest : list answer)
    (r : option vaultapi.Secret * option error) :
  exists token ttl,
    evaluates session (authenticate login)
      {| client := c; sealed := b; token := tok; script := ASecret r :: rest |}
      [Ev (login_request login) r]
      {| client := c; sealed := b; token := tok; script := rest |}
      (Returned (token, ttl, login_error r)) /\
    (login_error r = None ->
     match r with
     | (Some secret, _) =>
         token = fst (vaultapi.TokenID secret) /\
         ttl = fst (vaultapi.TokenTTL secret)
     | (None, _) => token = "" /\ ttl = 0
     end).
Proof.
  unfold authenticate, login_error.
  destruct r as [[secret|] [err|]];
    [| destruct (vaultapi.TokenID secret) as [tk [e|]] eqn:E;
       [|destruct (vaultapi.TokenTTL secret) as [ttl [e|]] eqn:E'] | |];
    do 2 eexists; (split; [ev_compute|]); try discriminate; cbn; auto.
Qed.

(** X13: what [authenticate] returns.  It sends one request, the AppRole
    login with the role ID and the secret ID, and touches nothing else.  It
    returns the error of the request, or else the error of reading the
    token, or else the error of reading the TTL; and when it returns no
    error the token and the TTL are those of the secret (or empty and zero
    when there is no secret).  It returns an error exactly when
    [login_failed] says so. *)
Theorem authenticate_result (login : AppRole) (c : option vaultapi.Client)
    (b : bool) (tok : string) (rest : list answer)
    (r : option vaultapi.Secret * option error) :
  exists token ttl,
    evaluates session (authenticate login)
      {| client := c; sealed := b; token := tok; script := ASecret r :: rest |}
      [Ev (login_request login) r]
      {| client := c; sealed := b; token := tok; script := rest |}
      (Returned (token, ttl, login_error r)) /\
    (login_error r = None ->
     match r with
     | (Some secret, _) =>
         token = fst (vaultapi.TokenID secret) /\
         ttl = fst (vaultapi.TokenTTL secret)
     | (None, _) => token = "" /\ ttl = 0
     end) /\
    (login_failed r = true <-> login_error r <> None).
Proof.
  destruct (authenticate_run login c b tok rest r) as (token & ttl & H & Hok).
  exists token, ttl. split; [exact H|]. split; [exact Hok|].
  unfold login_failed, login_error.
  destruct r as [[secret|] [err|]]; try easy.
  destruct (vaultapi.TokenID secret) as [tk [e|]]; [easy|].
  destruct (vaultapi.TokenTTL secret) as [t [e|]]; easy.
Qed.

Section Connecting.

Variables (s : Store.t) (fi : FileInfo).

Lemma Authenticate_logs_in (cl : vaultapi.Client)
    (c0 : option vaultapi.Client) (b0 : bool) (tok0 : string) (rest : list answer) (sec : vaultapi.Secret)
    (tk : string) (ttl : Duration) :
  vaultapi.TokenID sec = (tk, None) -> vaultapi.TokenTTL sec = (ttl, None) ->
  evaluates session (Authenticate s)
    {| client := c0; sealed := b0; token := tok0;
       script := login_script s fi cl sec ++ rest |}
    (login_events s fi cl sec tk ttl)
    {| client := Some cl; sealed := false; token := tk; script := rest |}
    (Returned None).
Proof.
  intros Htk Httl.
  unfold Authenticate, authenticate, login_script, login_events,
    connect_script, connect_events, stat_script, stat_events, tls_config,
    namespace_events.
  destruct (String.eqb (Store.CAPath s) ""),
           (String.eqb (Store.Namespace s) ""), fi as [[|]];
    cbn [IsDir app]; cbv beta iota; ev_compute.
Qed.

Lemma login_events_goroutines cl sec tk ttl :
  goroutines (login_events s fi cl sec tk ttl)
  = [go_checkStatus (Store.StatusPingAfter s);
     go_renewAuthToken (Store.AppRole s) ttl].
Proof.
  unfold login_events, connect_events, stat_events, namespace_events.
  now destruct (String.eqb (Store.CAPath s) ""),
               (String.eqb (Store.Namespace s) "").
Qed.

(** X14: [Authenticate] on an unsealed server.  It builds the client from
    the address and the TLS settings (the CA path is a directory of
    certificates or a single file, by what [os.Stat] says; it is not looked
    at when empty), sets the namespace when one is configured, stores the
    client, asks for the health, stores [sealed = false], logs in with the
    AppRole of the store and sets the token it got.  Then it starts the
    monitor with [StatusPingAfter] and the engine with the AppRole and the
    TTL of the login, and returns nil. *)
Theorem Authenticate_unsealed (cl : vaultapi.Client)
    (c0 : option vaultapi.Client) (b0 : bool) (tok0 : string)
    (rest : list answer) (sec : vaultapi.Secret) (tk : string)
    (ttl : Duration) :
  let tr :=
    stat_events s fi
    ++ Ev (NewClient (Store.Addr s) (tls_config s fi)) (Some cl, None)
    :: namespace_events s
    ++ [Ev (StoreClient (Some cl)) tt;
        Ev SysHealth (Some {| vaultapi.Sealed := false |}, None);
        Ev (StoreSealed false) tt;
        Ev (login_request (Store.AppRole s)) (Some sec, None);
        Ev (SetToken tk) tt;
        Ev (Go (go_checkStatus (Store.StatusPingAfter s))) tt;
        Ev (Go (go_renewAuthToken (Store.AppRole s) ttl)) tt] in
  vaultapi.TokenID sec = (tk, None) -> vaultapi.TokenTTL sec = (ttl, None) ->
  evaluates session (Authenticate s)
    {| client := c0; sealed := b0; token := tok0;
       script := login_script s fi cl sec ++ rest |}
    tr
    {| client := Some cl; sealed := false; token := tk; script := rest |}
    (Returned None) /\
  vault_requests tr = [SysHealth; login_request (Store.AppRole s)].
Proof.
  intros tr Htk Httl. unfold tr. split.
  - eapply ev_shaped;
      [eapply Authenticate_logs_in; eassumption|reflexivity|].
    unfold login_events, connect_events. list_shape.
  - unfold stat_events, namespace_events.
    now destruct (String.eqb (Store.CAPath s) ""),
                 (String.eqb (Store.Namespace s) "").
Qed.

(** X15: [Authenticate] does not look at what the store holds.  Called on
    a store that is connected already, it builds and stores another client
    and starts another monitor and another engine: after two calls that log
    in, two monitors and two engines have been started, and the token is
    that of the second login. *)
Theorem Authenticate_twice (c0 : option vaultapi.Client) (b0 : bool)
    (tok0 : string) (rest : list answer) (cl cl' : vaultapi.Client)
    (sec sec' : vaultapi.Secret) (tk tk' : string) (ttl ttl' : Duration) :
  let tr := login_events s fi cl sec tk ttl
            ++ login_events s fi cl' sec' tk' ttl' in
  vaultapi.TokenID sec = (tk, None) -> vaultapi.TokenTTL sec = (ttl, None) ->
  vaultapi.TokenID sec' = (tk', None) ->
  vaultapi.TokenTTL sec' = (ttl', None) ->
  evaluates session (Authenticate s ;; Authenticate s)
    {| client := c0; sealed := b0; token := tok0;
       script := login_script s fi cl sec
                 ++ login_script s fi cl' sec' ++ rest |}
    tr
    {| client := Some cl'; sealed := false; token := tk'; script := rest |}
    (Returned None) /\
  goroutines tr = [go_checkStatus (Store.StatusPingAfter s);
                   go_renewAuthToken (Store.AppRole s) ttl;
                   go_checkStatus (Store.StatusPingAfter s);
                   go_renewAuthToken (Store.AppRole s) ttl'].
Proof.
  intros tr Htk Httl Htk' Httl'. unfold tr. split.
  - eapply ev_bind; now apply Authenticate_logs_in.
  - unfold goroutines. rewrite map_app, omap_app.
    fold (goroutines (login_events s fi cl sec tk ttl)).
    fold (goroutines (login_events s fi cl' sec' tk' ttl')).
    now rewrite !login_events_goroutines.
Qed.

(** X16: [Authenticate] fails before there is a client.  When [os.Stat] of
    a configured CA path fails, it returns an error that names the path and
    has built no client; when the client cannot be built, it returns the
    error of [NewClient].  In both cases the fields of the store are what
    they were: a store that was not connected is still not connected. *)
Theorem Authenticate_fails_early (c0 : option vaultapi.Client) (b0 : bool)
    (tok : string) (rest : list answer) :
  let ss sc := {| client := c0; sealed := b0; token := tok; script := sc |} in
  (Store.CAPath s <> "" ->
   forall x err,
     evaluates session (Authenticate s) (ss (AStat (x, Some err) :: rest))
       [Ev (Stat (Store.CAPath s)) (x, Some err)] (ss rest)
       (Returned (Some (ErrorString ("Failed to open '" +:+ Store.CAPath s
                                     +:+ "': " +:+ Error err))))) /\
  (forall x err,
     evaluates session (Authenticate s)
       (ss (stat_script s fi ++ AClient (x, Some err) :: rest))
       (stat_events s fi
        ++ [Ev (NewClient (Store.Addr s) (tls_config s fi)) (x, Some err)])
       (ss rest) (Returned (Some err))).
Proof.
  intros ss. unfold ss, Authenticate, stat_script, stat_events, tls_config.
  split.
  - intros Hca x err.
    destruct (String.eqb_spec (Store.CAPath s) "") as [E|_]; [now elim Hca|].
    destruct x; ev_compute.
  - intros x err.
    destruct (String.eqb (Store.CAPath s) ""), fi as [[|]], x;
      cbn [IsDir app]; cbv beta iota; ev_compute.
Qed.

End Connecting.

Section Connected.

Variable ErrKeyNotFound : error.
Variables (s : Store.t) (fi : FileInfo) (cl : vaultapi.Client).

Lemma Authenticate_no_health (c0 : option vaultapi.Client) (b0 : bool)
    (tok : string) (rest : list answer)
    (x : option vaultapi.HealthResponse) (err : error) :
  evaluates session (Authenticate s)
    {| client := c0; sealed := b0; token := tok;
       script := connect_script s fi cl ++ AHealth (x, Some err) :: rest |}
    (connect_events s fi cl ++ [Ev SysHealth (x, Some err)])
    {| client := Some cl; sealed := b0; token := tok; script := rest |}
    (Returned (Some err)).
Proof.
  unfold Authenticate, connect_script, connect_events, stat_script,
    stat_events, tls_config, namespace_events.
  destruct (String.eqb (Store.CAPath s) ""),
           (String.eqb (Store.Namespace s) ""), fi as [[|]], x;
    cbn [IsDir app]; cbv beta iota; ev_compute.
Qed.

Lemma connect_events_quiet :
  goroutines (connect_events s fi cl) = [] /\
  tokens_set (connect_events s fi cl) = [] /\
  vault_requests (connect_events s fi cl) = [].
Proof.
  unfold connect_events, stat_events, namespace_events.
  now destruct (String.eqb (Store.CAPath s) ""),
               (String.eqb (Store.Namespace s) "").
Qed.

(** X17: [Authenticate] fails after the client is stored.  When the health
    query fails, or when the server is unsealed and the login fails,
    [Authenticate] returns the error, sets no token and starts no goroutine;
    but the store keeps the client it was given (and, after a failed login,
    [sealed = false]).  Such a store counts as connected: a [Get] that
    follows does not fail with [errNoConnection], it sends its read with a
    client that has no token. *)
Theorem Authenticate_fails_connected (c0 : option vaultapi.Client)
    (b0 : bool) (tok : string) (rest : list answer) (key : string) :
  let ss c b sc := {| client := c; sealed := b; token := tok; script := sc |} in
  (forall x err,
     evaluates session (Authenticate s)
       (ss c0 b0 (connect_script s fi cl ++ AHealth (x, Some err) :: rest))
       (connect_events s fi cl ++ [Ev SysHealth (x, Some err)])
       (ss (Some cl) b0 rest) (Returned (Some err))) /\
  (forall r,
     login_failed r = true ->
     evaluates session (Authenticate s)
       (ss c0 b0 (connect_script s fi cl
                  ++ AHealth (Some {| vaultapi.Sealed := false |}, None)
                  :: ASecret r :: rest))
       (connect_events s fi cl
        ++ [Ev SysHealth (Some {| vaultapi.Sealed := false |}, None);
            Ev (StoreSealed false) tt;
            Ev (login_request (Store.AppRole s)) r])
       (ss (Some cl) false rest) (Returned (login_error r)) /\
     login_error r <> None) /\
  goroutines (connect_events s fi cl) = [] /\
  tokens_set (connect_events s fi cl) = [] /\
  (forall x err,
     evaluates session (Authenticate s ;; Get ErrKeyNotFound s key)
       (ss None false (connect_script s fi cl
                       ++ AHealth (x, Some err) :: ASecret (None, None)
                       :: rest))
       ((connect_events s fi cl ++ [Ev SysHealth (x, Some err)])
        ++ [Ev LoadClient (Some cl); Ev LoadSealed false;
            Ev (LogicalRead (location s key)) (None, None)])
       (ss (Some cl) false rest) (Returned ("", Some ErrKeyNotFound))).
Proof.
  intros ss. unfold ss.
  split; [intros x err; apply Authenticate_no_health|].
  split; [|split; [apply connect_events_quiet|
           split; [apply connect_events_quiet|]]].
  - intros r Hr. split.
    + unfold Authenticate, authenticate, connect_script, connect_events,
        stat_script, stat_events, tls_config, namespace_events.
      unfold login_failed in Hr. unfold login_error.
      destruct r as [[secret|] [e|]]; try discriminate Hr;
        [| destruct (vaultapi.TokenID secret) as [tk [e|]] eqn:E;
           [|destruct (vaultapi.TokenTTL secret) as [ttl [e|]] eqn:E';
             [|discriminate Hr]] |];
        destruct (String.eqb (Store.CAPath s) ""),
                 (String.eqb (Store.Namespace s) ""), fi as [[|]];
        cbn [IsDir app]; cbv beta iota; ev_compute.
    + unfold login_failed in Hr. unfold login_error.
      destruct r as [[secret|] [e|]]; try easy.
      destruct (vaultapi.TokenID secret) as [tk [e|]]; [easy|].
      destruct (vaultapi.TokenTTL secret) as [t [e|]]; easy.
  - intros x err.
    eapply ev_bind; [apply Authenticate_no_health|].
    unfold Get. ev_compute.
Qed.

End Connected.

(** ** What every run of [Authenticate] and of the engine is made of *)

Lemma post_bind_bind {St} (env : St -> forall o : op, option (St * resp o))
    {A B C} (t : itree vaultE A) (f : A -> itree vaultE B)
    (g : B -> itree vaultE C) (Q : list event -> outcome C -> Prop) :
  post env (ITree.bind t (fun x => ITree.bind (f x) g)) Q ->
  post env (ITree.bind (ITree.bind t f) g) Q.
Proof.
  intros H n st tr st' out Hr. apply (H n st tr st' out).
  now rewrite <- run_bind_bind.
Qed.

(** Walks through a block whose parts are blocks themselves. *)
Ltac post_walk_deep :=
  repeat lazymatch goal with
    | |- post _ (Ret _) _ => apply post_ret
    | |- post ?env (ITree.bind (call ?o) ?k) ?Q =>
        apply (post_do env o k Q); [intros ?; cbv beta|]
    | |- post ?env (call ?o) ?Q => apply (post_call env o Q); [intros ?|]
    | |- post _ (match ?x with _ => _ end) _ => destruct x
    | |- post _ (ITree.bind (match ?x with _ => _ end) _) _ => destruct x
    | |- post _ (ITree.bind (Ret _) _) _ =>
        apply post_ret_bind; cbv beta iota
    | |- post _ (ITree.bind panic _) _ => apply post_panic_bind
    | |- post _ panic _ => apply post_panic
    | |- post ?env (ITree.bind (ITree.bind ?t ?f) ?g) ?Q =>
        apply (post_bind_bind env t f g Q)
    end.

Lemma Authenticate_started {St}
    (env : St -> forall o : op, option (St * resp o)) (s : Store.t) :
  post env (Authenticate s)
    (fun tr out =>
       match out with
       | Returned None =>
           exists ttl,
             goroutines tr = [go_checkStatus (Store.StatusPingAfter s);
                              go_renewAuthToken (Store.AppRole s) ttl] /\
             (tokens_set tr = [] -> ttl = 0)
       | Returned (Some _) => goroutines tr = [] /\ tokens_set tr = []
       | Awaiting _ => True
       end).
Proof.
  unfold Authenticate, authenticate. post_walk_deep;
    try exact I; try (split; reflexivity);
    eexists; (split; [reflexivity|]); intros; try reflexivity.
  all: discriminate.
Qed.

(** X18: the goroutines of [Authenticate].  In every environment, an
    [Authenticate] that returns nil has started exactly two goroutines, the
    monitor with [StatusPingAfter] and the engine with the AppRole of the
    store, in this order; the TTL given to the engine is zero unless a token
    was set.  An [Authenticate] that returns an error has started no
    goroutine and has set no token. *)
Theorem Authenticate_goroutines (s : Store.t) (St : Type)
    (env : St -> forall o : op, option (St * resp o)) (fuel : nat)
    (st st' : St) (tr : list event) (e : option error) :
  run env fuel (Authenticate s) st = Some (tr, st', Returned e) ->
  match e with
  | None =>
      exists ttl,
        goroutines tr = [go_checkStatus (Store.StatusPingAfter s);
                         go_renewAuthToken (Store.AppRole s) ttl] /\
        (tokens_set tr = [] -> ttl = 0)
  | Some _ => goroutines tr = [] /\ tokens_set tr = []
  end.
Proof. intros H. exact (Authenticate_started env s _ _ _ _ _ H). Qed.

Section Events.

Context {St : Type} (env : St -> forall o : op, option (St * resp o)).
Variable P : event -> Prop.

Lemma post_bind_events {R T} (t : itree vaultE R) (k : R -> itree vaultE T) :
  post env t (fun tr _ => Forall P tr) ->
  (forall r, post env (k r) (fun tr _ => Forall P tr)) ->
  post env (ITree.bind t k) (fun tr _ => Forall P tr).
Proof.
  intros Ht Hk. eapply post_bind; [exact Ht| |auto].
  intros tr1 r H1. eapply post_weaken; [apply Hk|].
  intros tr2 out2 H2. now apply Forall_app.
Qed.

End Events.

Lemma is_engine_op_login login x :
  Forall (fun e => is_engine_op login (op_of e) = true)
    [Ev (login_request login) x].
Proof.
  repeat constructor. unfold is_engine_op, login_request, op_of.
  now rewrite bool_decide_eq_true_2.
Qed.

Lemma is_engine_op_quiet login tr :
  Forall (fun e => is_engine_op login (op_of e) = true) tr ->
  log_lines tr = [].
Proof.
  intros H.
  induction H as [|[o x] tr Ho _ IH]; [reflexivity|].
  unfold log_lines in *. cbn [map omap op_of list_omap].
  destruct o; try discriminate Ho; exact IH.
Qed.

Lemma is_renewal_op_engine login tr :
  Forall (fun e => is_renewal_op (op_of e) = true) tr ->
  Forall (fun e => is_engine_op login (op_of e) = true) tr.
Proof.
  intros H. eapply Forall_impl; [exact H|].
  intros [o x] Ho. cbn in *. now destruct o.
Qed.

Lemma is_renewal_op_no_login tr :
  Forall (fun e => is_renewal_op (op_of e) = true) tr -> no_login tr.
Proof.
  intros H. eapply Forall_impl; [exact H|].
  intros [o x] Ho. cbn in *. now destruct o.
Qed.

Section EngineEvents.

Context {St : Type} (env : St -> forall o : op, option (St * resp o)).
Variable int_seconds : Duration -> Z.
Variable login : AppRole.

Lemma wait_unsealed_events :
  post env wait_unsealed
    (fun tr _ => Forall (fun e => is_engine_op login (op_of e) = true) tr).
Proof.
  unfold wait_unsealed. apply post_iter_events. intros [].
  unfold wait_unsealed_body. post_walk; repeat constructor.
Qed.

Lemma renew_loop_events ttl :
  post env (renew_loop int_seconds ttl)
    (fun tr _ => Forall (fun e => is_renewal_op (op_of e) = true) tr).
Proof.
  unfold renew_loop. apply post_iter_events. intros [].
  unfold renew_body. post_walk; repeat constructor.
Qed.

Lemma renew_events ttl :
  post env (renew int_seconds ttl)
    (fun tr _ => Forall (fun e => is_renewal_op (op_of e) = true) tr).
Proof.
  unfold renew. apply post_bind_events.
  - apply post_call; repeat constructor.
  - intros _. apply post_bind_events; [apply renew_loop_events|].
    intros [[]| |]; post_walk; constructor.
Qed.

Lemma reauthenticate_events ttl :
  post env (reauthenticate login ttl)
    (fun tr _ => Forall (fun e => is_engine_op login (op_of e) = true) tr).
Proof.
  unfold reauthenticate, authenticate. destruct (ttl =? 0).
  - apply post_bind_events.
    + apply post_bind_events.
      * apply post_call; [intros x; apply is_engine_op_login|constructor].
      * intros r. post_walk; constructor.
    + intros [[token ttl'] err]. post_walk; repeat constructor.
  - post_walk. constructor.
Qed.

Lemma renewAuthToken_body_events ttl :
  post env (renewAuthToken_body int_seconds login ttl)
    (fun tr _ => Forall (fun e => is_engine_op login (op_of e) = true) tr).
Proof.
  unfold renewAuthToken_body.
  apply post_bind_events; [apply wait_unsealed_events|].
  intros [[]| |]; [|post_walk; constructor|post_walk; constructor].
  apply post_bind_events; [apply reauthenticate_events|].
  intros [ttl'| |]; [|post_walk; constructor|post_walk; constructor].
  eapply post_weaken; [apply renew_events|].
  intros tr out. apply is_renewal_op_engine.
Qed.

End EngineEvents.

(** X19: what the engine touches.  In every environment and at every point
    of a run, the events of the engine are loads of [sealed], the AppRole
    login with the credentials it was started with, tokens set on the
    client, renewals, and its timers and its context.  It stores into no
    field of the store, and it writes nothing to the error log: a login or a
    renewal that fails leaves no trace there. *)
Theorem engine_frame (int_seconds : Duration -> Z) (login : AppRole)
    (ttl : Duration) (St : Type)
    (env : St -> forall o : op, option (St * resp o)) (fuel : nat)
    (st st' : St) (tr : list event) (out : outcome unit) :
  run env fuel (renewAuthToken int_seconds login ttl) st
  = Some (tr, st', out) ->
  Forall (fun e => is_engine_op login (op_of e) = true) tr /\
  log_lines tr = [].
Proof.
  intros H.
  assert (Hev : Forall (fun e => is_engine_op login (op_of e) = true) tr).
  { revert H. unfold renewAuthToken. intros H.
    assert (Hp := post_iter_events env
                    (renewAuthToken_body int_seconds (default_retry login))
                    ttl
                    (fun e => is_engine_op (default_retry login) (op_of e)
                              = true)
                    (renewAuthToken_body_events env int_seconds
                       (default_retry login))).
    specialize (Hp _ _ _ _ _ H). cbv beta in Hp.
    eapply Forall_impl; [exact Hp|]. intros [o x] Ho. cbn in *.
    unfold is_engine_op in *. fold (login_request login).
    destruct o; try exact Ho. unfold default_retry in Ho.
    now destruct (Retry login =? 0). }
  split; [exact Hev|]. now apply (is_engine_op_quiet login).
Qed.

Lemma Authenticate_quiet {St}
    (env : St -> forall o : op, option (St * resp o)) (s : Store.t) :
  post env (Authenticate s)
    (fun tr _ =>
       log_lines tr = [] /\
       vault_requests tr
       `prefix_of` [SysHealth; login_request (Store.AppRole s)]).
Proof.
  unfold Authenticate, authenticate. post_walk_deep;
    (split; [reflexivity|simpl; eexists; reflexivity]).
Qed.

(** X20: what [Authenticate] sends and says.  In every environment and at
    every point of a run, [Authenticate] has sent at most the health query
    and, after it, the AppRole login of the store; and it has written
    nothing to the error log: its errors are returned, not logged. *)
Theorem Authenticate_frame (s : Store.t) (St : Type)
    (env : St -> forall o : op, option (St * resp o)) (fuel : nat)
    (st st' : St) (tr : list event) (out : outcome (option error)) :
  run env fuel (Authenticate s) st = Some (tr, st', out) ->
  log_lines tr = [] /\
  vault_requests tr `prefix_of` [SysHealth; login_request (Store.AppRole s)].
Proof. intros H. exact (Authenticate_quiet env s _ _ _ _ _ H). Qed.

(** ** The engine and the monitor at their waits *)

(** X21: the engine is stopped while it holds a lease.  Holding a lease of
    [ttl] on an unsealed server, after any number of renewals that succeed,
    the engine that sees its context cancelled while it waits for the next
    renewal stops its timer and returns; it sends no further request and
    leaves the token and the [sealed] flag as they are. *)
Theorem renewal_cancelled (int_seconds : Duration -> Z) (login : AppRole)
    (c : option vaultapi.Client) (tok : string) (ttl : Duration)
    (oks : list vaultapi.Secret) :
  let s sc := {| client := c; sealed := false; token := tok; script := sc |} in
  ttl <> 0 ->
  Forall (fun sec => renewal_failed (Some sec, None) = false) oks ->
  evaluates session (renewAuthToken int_seconds login ttl)
    (s (renewals_script oks ++ [AWake None Done]))
    ([Ev LoadSealed false; Ev (NewTimer (ttl ÷ 2)) tt]
     ++ renewals_events (int_seconds ttl) oks
     ++ [Ev Select Done; Ev TimerStop tt])
    (s []) (Returned tt).
Proof.
  intros s Httl Hoks. unfold s, renewAuthToken.
  apply ev_iter_exit. unfold renewAuthToken_body.
  change ([Ev LoadSealed false; Ev (NewTimer (ttl ÷ 2)) tt]
          ++ renewals_events (int_seconds ttl) oks
          ++ [Ev Select Done; Ev TimerStop tt])
    with ([Ev LoadSealed false]
          ++ Ev (NewTimer (ttl ÷ 2)) tt
          :: renewals_events (int_seconds ttl) oks
          ++ [Ev Select Done; Ev TimerStop tt]).
  eapply ev_bind; [apply wait_unsealed_open|]. cbv beta iota.
  unfold reauthenticate. apply Z.eqb_neq in Httl. rewrite Httl.
  apply ev_ret_bind. unfold renew.
  eapply ev_do; [reflexivity|]. cbn [client sealed token script].
  rewrite <- (app_nil_r (_ ++ [_; _])). eapply ev_bind.
  - apply renew_loop_renewed; [exact Hoks|].
    apply ev_iter_exit. unfold renew_body. ev_compute.
  - apply ev_ret.
Qed.

(** ** The engine logs in only after it has read [sealed = false] *)

Lemma follow_no_login ready tr :
  no_login tr -> logins_follow_unsealed ready tr = true.
Proof.
  intros H. revert ready. induction H as [|e tr He _ IH]; intros ready;
    [reflexivity|].
  cbn [logins_follow_unsealed]. rewrite He. apply IH.
Qed.

Lemma follow_app ready tr1 tr2 :
  logins_follow_unsealed ready tr1 = true ->
  (forall r, logins_follow_unsealed r tr2 = true) ->
  logins_follow_unsealed ready (tr1 ++ tr2) = true.
Proof.
  revert ready. induction tr1 as [|e tr1 IH]; intros ready H1 H2;
    [apply H2|].
  cbn [app logins_follow_unsealed] in *.
  apply andb_true_iff in H1 as [He H1]. rewrite He. now apply IH.
Qed.

Lemma follow_unsealed_login ready tr0 o x tr :
  no_login tr0 -> no_login tr ->
  logins_follow_unsealed ready
    ((tr0 ++ [Ev LoadSealed false]) ++ Ev o x :: tr) = true.
Proof.
  intros H0 H. rewrite <- app_assoc. revert ready.
  induction H0 as [|e tr0 He _ IH]; intros ready.
  - cbn [app logins_follow_unsealed is_login op_of read_unsealed negb andb].
    destruct (is_login o); now apply follow_no_login.
  - cbn [app logins_follow_unsealed]. rewrite He. apply IH.
Qed.

Lemma no_login_app tr1 tr2 : no_login tr1 -> no_login tr2 -> no_login (tr1 ++ tr2).
Proof. intros H1 H2. now apply Forall_app. Qed.

Section Logins.

Context {St : Type} (env : St -> forall o : op, option (St * resp o)).
Variable int_seconds : Duration -> Z.
Variable login : AppRole.

(** The wait for the server to be unsealed holds no login, and it ends with
    the load that found [sealed] cleared when the engine is to go on. *)
Lemma wait_unsealed_ends :
  post env wait_unsealed
    (fun tr out =>
       no_login tr /\
       (out = Returned (Proceeds tt) ->
        exists tr0, tr = tr0 ++ [Ev LoadSealed false])).
Proof.
  unfold wait_unsealed. apply post_iter with (Inv := no_login);
    [constructor|].
  intros tr0 [] H0. unfold wait_unsealed_body.
  post_walk;
    try (split; [apply no_login_app; [exact H0|repeat constructor]
                |try discriminate]);
    try (apply no_login_app; [exact H0|repeat constructor]).
  intros _. now exists tr0.
Qed.

(** The login, when there is one, is the first event of the block. *)
Lemma reauthenticate_begins ttl :
  post env (reauthenticate login ttl)
    (fun tr _ => tr = [] \/ exists o x tr', tr = Ev o x :: tr' /\ no_login tr').
Proof.
  unfold reauthenticate, authenticate. destruct (ttl =? 0).
  - post_walk_deep;
      first [ now left
            | right; exists (login_request login); do 2 eexists;
              split; [reflexivity|repeat constructor] ].
  - post_walk. now left.
Qed.

Lemma renew_no_login ttl :
  post env (renew int_seconds ttl) (fun tr _ => no_login tr).
Proof.
  eapply post_weaken; [apply renew_events|].
  intros tr out. apply is_renewal_op_no_login.
Qed.

Lemma renewAuthToken_body_logins ttl :
  post env (renewAuthToken_body int_seconds login ttl)
    (fun tr _ => forall ready, logins_follow_unsealed ready tr = true).
Proof.
  unfold renewAuthToken_body.
  eapply post_bind; [apply wait_unsealed_ends| |].
  - intros tr1 [[]| |] [Hq Hend].
    + destruct (Hend eq_refl) as [tr0 ->].
      assert (Hq0 : no_login tr0) by (now apply Forall_app in Hq).
      eapply post_bind; [apply reauthenticate_begins| |].
      * intros tr2 a Ha.
        assert (Hgo : forall tr3, no_login tr3 -> forall ready,
                   logins_follow_unsealed ready
                     ((tr0 ++ [Ev LoadSealed false]) ++ tr2 ++ tr3) = true).
        { intros tr3 H3 ready.
          destruct Ha as [->|(o & x & tr' & -> & Hq')].
          - apply follow_no_login. now apply no_login_app.
          - apply follow_unsealed_login; [exact Hq0|].
            now apply no_login_app. }
        destruct a as [ttl'| |].
        -- eapply post_weaken; [apply renew_no_login|].
           intros tr3 out H3. now apply Hgo.
        -- post_walk. apply Hgo. constructor.
        -- post_walk. apply Hgo. constructor.
      * intros tr2 o [->|(o' & x & tr' & -> & Hq')] ready.
        -- apply follow_no_login. now rewrite app_nil_r.
        -- now apply follow_unsealed_login.
    + post_walk. intros ready. apply follow_no_login.
      now rewrite app_nil_r.
    + post_walk. intros ready. apply follow_no_login.
      now rewrite app_nil_r.
  - intros tr o [Hq _] ready. now apply follow_no_login.
Qed.

End Logins.

(** X22: no login while the flag is known to be set.  In every environment
    and at every point of a run of the engine, each AppRole login it has
    sent directly follows a load of [sealed] that found the flag cleared:
    the engine never logs in without having just read [sealed = false]. *)
Theorem logins_only_when_unsealed (int_seconds : Duration -> Z)
    (login : AppRole) (ttl : Duration) (St : Type)
    (env : St -> forall o : op, option (St * resp o)) (fuel : nat)
    (st st' : St) (tr : list event) (out : outcome unit) :
  run env fuel (renewAuthToken int_seconds login ttl) st
  = Some (tr, st', out) ->
  logins_follow_unsealed false tr = true.
Proof.
  unfold renewAuthToken.
  apply (post_iter env
           (renewAuthToken_body int_seconds (default_retry login)) ttl
           (fun tr => logins_follow_unsealed false tr = true)
           (fun tr _ => logins_follow_unsealed false tr = true));
    [reflexivity|].
  intros tr0 ttl0 H0. eapply post_weaken;
    [apply renewAuthToken_body_logins|].
  intros tr1 [[|]|] H1; now apply follow_app.
Qed.

(** ** The further properties at work *)

Lemma Create_then_Get_witness :
  (∅ : gmap string (gmap string value)) !! example_path = None /\
  evaluates world
    (Create example_ErrKeyExists example_store "db-key" "secret123" ;;
     Get example_ErrKeyNotFound example_store "db-key")
    (example_world false ∅)
    (example_created ++ example_read)
    (example_world false (<[ example_path := example_entry ]> ∅))
    (Returned ("secret123", None)).
Proof.
  assert (H : (∅ : gmap string (gmap string value)) !! example_path = None)
    by reflexivity.
  split; [exact H|].
  exact (Create_then_Get example_ErrKeyNotFound example_ErrKeyExists
           example_store 1%nat "db-key" "secret123" ∅ H).
Defined.

Lemma keys_are_separate_witness :
  "tls-key" <> "db-key" /\
  evaluates world (Get example_ErrKeyNotFound example_store "db-key")
    (example_world false example_kv) example_read
    (example_world false example_kv) (Returned ("secret123", None)) /\
  location example_store "tls-key" <> example_path /\
  example_kv !! location example_store "tls-key" = None /\
  evaluates world
    (Create example_ErrKeyExists example_store "tls-key" "pem" ;;
     Get example_ErrKeyNotFound example_store "db-key")
    (example_world false example_kv)
    ((loads 1%nat
      ++ [Ev (LogicalRead (location example_store "tls-key")) (None, None);
          Ev (LogicalWrite (location example_store "tls-key")
                {[ "tls-key" := VString "pem" ]}) (None, None)])
     ++ example_read)
    (example_world false
       (<[ location example_store "tls-key" := {[ "tls-key" := VString "pem" ]} ]>
          example_kv))
    (Returned ("secret123", None)) /\
  evaluates world
    (Delete example_store "tls-key" ;;
     Get example_ErrKeyNotFound example_store "db-key")
    (example_world false example_kv)
    ((loads 1%nat
      ++ [Ev (LogicalDelete (location example_store "tls-key")) (None, None)])
     ++ example_read)
    (example_world false (delete (location example_store "tls-key") example_kv))
    (Returned ("secret123", None)).
Proof.
  assert (H1 : "tls-key" <> "db-key") by discriminate.
  assert (H2 : evaluates world
                 (Get example_ErrKeyNotFound example_store "db-key")
                 (example_world false example_kv) example_read
                 (example_world false example_kv)
                 (Returned ("secret123", None)))
    by (exists 10%nat; vm_compute; reflexivity).
  assert (H3 : example_kv !! location example_store "tls-key" = None)
    by (vm_compute; reflexivity).
  destruct (keys_are_separate example_ErrKeyNotFound example_ErrKeyExists
              example_store 1%nat "db-key" "tls-key" "pem" example_kv
              example_read (example_world false example_kv)
              (Returned ("secret123", None)) H1 H2)
    as (Hp & Hc & Hd).
  split; [exact H1|]. split; [exact H2|]. split; [exact Hp|].
  split; [exact H3|]. split; [exact (Hc H3)|exact Hd].
Defined.

Lemma Delete_then_Get_witness :
  evaluates world
    (Delete example_store "db-key" ;;
     Get example_ErrKeyNotFound example_store "db-key")
    (example_world false example_kv)
    ((loads 1%nat ++ [Ev (LogicalDelete example_path) (None, None)])
     ++ loads 1%nat ++ [Ev (LogicalRead example_path) (None, None)])
    (example_world false (delete example_path example_kv))
    (Returned ("", Some example_ErrKeyNotFound)) /\
  "/kv/keys/my-app/tls-key" <> example_path /\
  delete example_path example_kv !! "/kv/keys/my-app/tls-key"
  = example_kv !! "/kv/keys/my-app/tls-key".
Proof.
  assert (H : "/kv/keys/my-app/tls-key" <> example_path)
    by (intros H; vm_compute in H; discriminate H).
  destruct (Delete_then_Get example_ErrKeyNotFound example_store 1%nat
              "db-key" example_kv) as (Hget & _ & Hother).
  split; [exact Hget|]. split; [exact H|]. exact (Hother _ H).
Defined.

Lemma backend_effects_witness :
  evaluates world
    (Create example_ErrKeyExists example_store "db-key" "secret123")
    (example_world false ∅) example_created
    (example_world false (<[ example_path := example_entry ]> ∅))
    (Returned None) /\
  (∅ : gmap string (gmap string value)) !! example_path = None /\
  example_world false (<[ example_path := example_entry ]> ∅)
  = {| w_client := Some 1%nat; w_sealed := false;
       w_kv := <[ example_path := example_entry ]> ∅ |}.
Proof.
  assert (H : evaluates world
                (Create example_ErrKeyExists example_store "db-key"
                   "secret123")
                (example_world false ∅) example_created
                (example_world false (<[ example_path := example_entry ]> ∅))
                (Returned None))
    by (exists 10%nat; vm_compute; reflexivity).
  split; [exact H|].
  exact (proj1 (proj2 (backend_effects example_ErrKeyNotFound
                         example_ErrKeyExists example_store "db-key"
                         "secret123" _ _ _)) None H).
Defined.

Lemma nested_locations_collide_witness :
  Store.Location example_store
  = Store.Location example_other_store +:+ "/" +:+ "my-app" /\
  (∅ : gmap string (gmap string value)) !! example_path = None /\
  location example_other_store ("my-app" +:+ "/" +:+ "db-key") = example_path /\
  evaluates world
    (Create example_ErrKeyExists example_store "db-key" "secret123" ;;
     Create example_ErrKeyExists example_other_store
       ("my-app" +:+ "/" +:+ "db-key") "other")
    (example_world false ∅)
    (example_created ++ example_read)
    (example_world false (<[ example_path := example_entry ]> ∅))
    (Returned (Some example_ErrKeyExists)) /\
  evaluates world
    (Create example_ErrKeyExists example_store "db-key" "secret123" ;;
     Get example_ErrKeyNotFound example_other_store
       ("my-app" +:+ "/" +:+ "db-key"))
    (example_world false ∅)
    (example_created
     ++ loads 1%nat
     ++ [Ev (LogicalRead example_path) (Some (kv_secret example_entry), None);
         Ev (Printf (Some 7%nat)
               ("vault: failed to read '" +:+ example_path
                +:+ "': entry exists but no secret key is present")) tt])
    (example_world false (<[ example_path := example_entry ]> ∅))
    (Returned
       ("", Some (ErrorString "vault: K/V entry does not contain any value"))).
Proof.
  assert (H1 : Store.Location example_store
               = Store.Location example_other_store +:+ "/" +:+ "my-app")
    by reflexivity.
  assert (H2 : (∅ : gmap string (gmap string value)) !! example_path = None)
    by reflexivity.
  split; [exact H1|]. split; [exact H2|].
  exact (nested_locations_collide example_ErrKeyNotFound example_ErrKeyExists
           1%nat example_other_store example_store "my-app" "db-key"
           "secret123" "other" ∅ H1 H2).
Defined.

Lemma key_operations_frame_witness :
  run session 10 (Delete example_store "db-key")
    (example_session false [ASecret example_failing])
  = Some (loads 1%nat
          ++ [Ev (LogicalDelete example_path) example_failing;
              Ev (Printf None ("vault: failed to delete '" +:+ example_path
                               +:+ "': " +:+ Error example_error)) tt],
          example_session false [], Returned (Some example_error)) /\
  Forall (fun e => is_key_op example_store (op_of e) = true)
    (loads 1%nat
     ++ [Ev (LogicalDelete example_path) example_failing;
         Ev (Printf None ("vault: failed to delete '" +:+ example_path
                          +:+ "': " +:+ Error example_error)) tt]) /\
  vault_requests
    (loads 1%nat
     ++ [Ev (LogicalDelete example_path) example_failing;
         Ev (Printf None ("vault: failed to delete '" +:+ example_path
                          +:+ "': " +:+ Error example_error)) tt])
  `prefix_of` [LogicalDelete example_path].
Proof.
  assert (H : run session 10 (Delete example_store "db-key")
                (example_session false [ASecret example_failing])
              = Some (loads 1%nat
                      ++ [Ev (LogicalDelete example_path) example_failing;
                          Ev (Printf None
                                ("vault: failed to delete '" +:+ example_path
                                 +:+ "': " +:+ Error example_error)) tt],
                      example_session false [],
                      Returned (Some example_error))) by reflexivity.
  split; [exact H|].
  exact (proj2 (proj2 (key_operations_frame example_ErrKeyNotFound
                         example_ErrKeyExists example_store "db-key" ""
                         Session session 10 _ _ _)) _ H).
Defined.

Lemma Authenticate_unsealed_witness :
  vaultapi.TokenID (example_lease (10 * Second)) = ("s.token", None) /\
  vaultapi.TokenTTL (example_lease (10 * Second)) = (10 * Second, None) /\
  evaluates session (Authenticate example_other_store)
    (example_unconnected
       (login_script example_other_store example_file 1%nat
          (example_lease (10 * Second)) ++ []))
    ([Ev (Stat "/etc/vault/ca.pem") (Some example_file, None)]
     ++ Ev (NewClient "https://127.0.0.1:8200"
              {| vaultapi.CACert := "/etc/vault/ca.pem"; vaultapi.CAPath := "";
                 vaultapi.ClientCert := ""; vaultapi.ClientKey := "" |})
          (Some 1%nat, None)
     :: [Ev (SetNamespace "tenant") tt]
     ++ [Ev (StoreClient (Some 1%nat)) tt;
         Ev SysHealth (Some {| vaultapi.Sealed := false |}, None);
         Ev (StoreSealed false) tt;
         Ev (login_request example_login)
           (Some (example_lease (10 * Second)), None);
         Ev (SetToken "s.token") tt;
         Ev (Go (go_checkStatus 0)) tt;
         Ev (Go (go_renewAuthToken example_login (10 * Second))) tt])
    (example_session false []) (Returned None).
Proof.
  split; [reflexivity|]. split; [reflexivity|].
  exact (proj1 (Authenticate_unsealed example_other_store example_file 1%nat
                  None false "" [] (example_lease (10 * Second)) "s.token"
                  (10 * Second) eq_refl eq_refl)).
Defined.

Lemma Authenticate_twice_witness :
  vaultapi.TokenID (example_lease (10 * Second)) = ("s.token", None) /\
  vaultapi.TokenTTL (example_lease (10 * Second)) = (10 * Second, None) /\
  vaultapi.TokenTTL (example_lease (20 * Second)) = (20 * Second, None) /\
  evaluates session
    (Authenticate example_other_store ;; Authenticate example_other_store)
    (example_unconnected
       (login_script example_other_store example_file 1%nat
          (example_lease (10 * Second))
        ++ login_script example_other_store example_file 2%nat
             (example_lease (20 * Second)) ++ []))
    (login_events example_other_store example_file 1%nat
       (example_lease (10 * Second)) "s.token" (10 * Second)
     ++ login_events example_other_store example_file 2%nat
          (example_lease (20 * Second)) "s.token" (20 * Second))
    {| client := Some 2%nat; sealed := false; token := "s.token";
       script := [] |}
    (Returned None) /\
  goroutines
    (login_events example_other_store example_file 1%nat
       (example_lease (10 * Second)) "s.token" (10 * Second)
     ++ login_events example_other_store example_file 2%nat
          (example_lease (20 * Second)) "s.token" (20 * Second))
  = [go_checkStatus 0; go_renewAuthToken example_login (10 * Second);
     go_checkStatus 0; go_renewAuthToken example_login (20 * Second)].
Proof.
  split; [reflexivity|]. split; [reflexivity|]. split; [reflexivity|].
  exact (Authenticate_twice example_other_store example_file None false ""
           [] 1%nat 2%nat (example_lease (10 * Second))
           (example_lease (20 * Second)) "s.token" "s.token" (10 * Second)
           (20 * Second) eq_refl eq_refl eq_refl eq_refl).
Defined.

Lemma Authenticate_fails_early_witness :
  Store.CAPath example_other_store <> "" /\
  evaluates session (Authenticate example_other_store)
    (example_unconnected [AStat (None, Some example_error)])
    [Ev (Stat "/etc/vault/ca.pem") (None, Some example_error)]
    (example_unconnected [])
    (Returned (Some (ErrorString
                       "Failed to open '/etc/vault/ca.pem': connection refused"))).
Proof.
  assert (H : Store.CAPath example_other_store <> "") by discriminate.
  split; [exact H|].
  exact (proj1 (Authenticate_fails_early example_other_store example_file
                  None false "" []) H None example_error).
Defined.

Lemma Authenticate_fails_connected_witness :
  login_failed example_failing = true /\
  evaluates session (Authenticate example_store)
    (example_unconnected
       (connect_script example_store example_file 1%nat
        ++ AHealth (Some {| vaultapi.Sealed := false |}, None)
        :: ASecret example_failing :: []))
    (connect_events example_store example_file 1%nat
     ++ [Ev SysHealth (Some {| vaultapi.Sealed := false |}, None);
         Ev (StoreSealed false) tt;
         Ev (login_request example_login) example_failing])
    {| client := Some 1%nat; sealed := false; token := ""; script := [] |}
    (Returned (Some example_error)).
Proof.
  assert (H : login_failed example_failing = true) by reflexivity.
  split; [exact H|].
  exact (proj1 (proj1 (proj2 (Authenticate_fails_connected
                                example_ErrKeyNotFound example_store
                                example_file 1%nat None false "" [] "db-key"))
                  example_failing H)).
Defined.

Lemma Authenticate_goroutines_witness :
  run session 30 (Authenticate example_store)
    (example_unconnected
       [AClient (Some 1%nat, None);
        AHealth (Some {| vaultapi.Sealed := true |}, None)])
  = Some ([Ev (NewClient "https://127.0.0.1:8200"
                 {| vaultapi.CACert := ""; vaultapi.CAPath := "";
                    vaultapi.ClientCert := ""; vaultapi.ClientKey := "" |})
             (Some 1%nat, None);
           Ev (StoreClient (Some 1%nat)) tt;
           Ev SysHealth (Some {| vaultapi.Sealed := true |}, None);
           Ev (StoreSealed true) tt;
           Ev (Go (go_checkStatus 0)) tt;
           Ev (Go (go_renewAuthToken example_login 0)) tt],
          {| client := Some 1%nat; sealed := true; token := "";
             script := [] |}, Returned None) /\
  exists ttl,
    goroutines
      [Ev (NewClient "https://127.0.0.1:8200"
             {| vaultapi.CACert := ""; vaultapi.CAPath := "";
                vaultapi.ClientCert := ""; vaultapi.ClientKey := "" |})
         (Some 1%nat, None);
       Ev (StoreClient (Some 1%nat)) tt;
       Ev SysHealth (Some {| vaultapi.Sealed := true |}, None);
       Ev (StoreSealed true) tt;
       Ev (Go (go_checkStatus 0)) tt;
       Ev (Go (go_renewAuthToken example_login 0)) tt]
    = [go_checkStatus (Store.StatusPingAfter example_store);
       go_renewAuthToken (Store.AppRole example_store) ttl] /\
    (tokens_set
       [Ev (NewClient "https://127.0.0.1:8200"
              {| vaultapi.CACert := ""; vaultapi.CAPath := "";
                 vaultapi.ClientCert := ""; vaultapi.ClientKey := "" |})
          (Some 1%nat, None);
        Ev (StoreClient (Some 1%nat)) tt;
        Ev SysHealth (Some {| vaultapi.Sealed := true |}, None);
        Ev (StoreSealed true) tt;
        Ev (Go (go_checkStatus 0)) tt;
        Ev (Go (go_renewAuthToken example_login 0)) tt] = [] -> ttl = 0).
Proof.
  assert (H : run session 30 (Authenticate example_store)
                (example_unconnected
                   [AClient (Some 1%nat, None);
                    AHealth (Some {| vaultapi.Sealed := true |}, None)])
              = Some ([Ev (NewClient "https://127.0.0.1:8200"
                             {| vaultapi.CACert := ""; vaultapi.CAPath := "";
                                vaultapi.ClientCert := "";
                                vaultapi.ClientKey := "" |})
                         (Some 1%nat, None);
                       Ev (StoreClient (Some 1%nat)) tt;
                       Ev SysHealth (Some {| vaultapi.Sealed := true |}, None);
                       Ev (StoreSealed true) tt;
                       Ev (Go (go_checkStatus 0)) tt;
                       Ev (Go (go_renewAuthToken example_login 0)) tt],
                      {| client := Some 1%nat; sealed := true; token := "";
                         script := [] |}, Returned None)) by reflexivity.
  split; [exact H|].
  exact (Authenticate_goroutines example_store Session session 30 _ _ _ None
           H).
Defined.

Lemma engine_frame_witness :
  run session 40 (renewAuthToken example_int_seconds example_login 0)
    (example_session false [ASecret example_failing; AWake None Done])
  = Some (example_cancelled_login, example_session false [], Returned tt) /\
  Forall (fun e => is_engine_op example_login (op_of e) = true)
    example_cancelled_login /\
  log_lines example_cancelled_login = [].
Proof.
  assert (H : run session 40
                (renewAuthToken example_int_seconds example_login 0)
                (example_session false
                   [ASecret example_failing; AWake None Done])
              = Some (example_cancelled_login, example_session false [],
                      Returned tt)) by reflexivity.
  split; [exact H|].
  exact (engine_frame example_int_seconds example_login 0 Session session 40
           _ _ _ _ H).
Defined.

Lemma logins_only_when_unsealed_witness :
  run session 40 (renewAuthToken example_int_seconds example_login 0)
    (example_session false [ASecret example_failing; AWake None Done])
  = Some (example_cancelled_login, example_session false [], Returned tt) /\
  logins_follow_unsealed false example_cancelled_login = true.
Proof.
  assert (H : run session 40
                (renewAuthToken example_int_seconds example_login 0)
                (example_session false
                   [ASecret example_failing; AWake None Done])
              = Some (example_cancelled_login, example_session false [],
                      Returned tt)) by reflexivity.
  split; [exact H|].
  exact (logins_only_when_unsealed example_int_seconds example_login 0
           Session session 40 _ _ _ _ H).
Defined.

Lemma renewal_cancelled_witness :
  10 * Second <> 0 /\
  Forall (fun sec => renewal_failed (Some sec, None) = false)
    example_renewals /\
  evaluates session
    (renewAuthToken example_int_seconds example_login (10 * Second))
    (example_session false
       (renewals_script example_renewals ++ [AWake None Done]))
    ([Ev LoadSealed false; Ev (NewTimer (10 * Second ÷ 2)) tt]
     ++ renewals_events (example_int_seconds (10 * Second)) example_renewals
     ++ [Ev Select Done; Ev TimerStop tt])
    (example_session false []) (Returned tt).
Proof.
  assert (H1 : 10 * Second <> 0) by (unfold Second; lia).
  assert (H2 : Forall (fun sec => renewal_failed (Some sec, None) = false)
                 example_renewals) by (repeat constructor).
  split; [exact H1|]. split; [exact H2|].
  exact (renewal_cancelled example_int_seconds example_login (Some 1%nat)
           "s.token" (10 * Second) example_renewals H1 H2).
Defined.

Lemma nil_error_means_done_witness :
  run session 10 (Get example_ErrKeyNotFound example_store "db-key")
    (example_session false [ASecret (Some (kv_secret example_entry), None)])
  = Some (example_read, example_session false [],
          Returned ("secret123", None)) /\
  exists c entry,
    example_read
    = loads c ++ [Ev (LogicalRead example_path) (Some entry, None)] /\
    vaultapi.Data entry !! "db-key" = Some (VString "secret123").
Proof.
  assert (H : run session 10
                (Get example_ErrKeyNotFound example_store "db-key")
                (example_session false
                   [ASecret (Some (kv_secret example_entry), None)])
              = Some (example_read, example_session false [],
                      Returned ("secret123", None))) by reflexivity.
  split; [exact H|].
  exact (proj1 (nil_error_means_done example_ErrKeyNotFound
                  example_ErrKeyExists example_store "db-key" "" Session
                  session 10 _ _ _) _ H).
Defined.

Lemma Get_error_has_no_value_witness :
  run session 10 (Get example_ErrKeyNotFound example_store "db-key")
    (example_session false [ASecret (None, None)])
  = Some (loads 1%nat ++ [Ev (LogicalRead example_path) (None, None)],
          example_session false [],
          Returned ("", Some example_ErrKeyNotFound)) /\
  "" = "".
Proof.
  assert (H : run session 10
                (Get example_ErrKeyNotFound example_store "db-key")
                (example_session false [ASecret (None, None)])
              = Some (loads 1%nat
                      ++ [Ev (LogicalRead example_path) (None, None)],
                      example_session false [],
                      Returned ("", Some example_ErrKeyNotFound)))
    by reflexivity.
  split; [exact H|].
  exact (Get_error_has_no_value example_ErrKeyNotFound example_store "db-key"
           Session session 10 _ _ _ _ _ H).
Defined.

Lemma Authenticate_frame_witness :
  run session 30 (Authenticate example_store)
    (example_unconnected
       [AClient (Some 1%nat, None); AHealth (None, Some example_error)])
  = Some (connect_events example_store example_file 1%nat
          ++ [Ev SysHealth (None, Some example_error)],
          {| client := Some 1%nat; sealed := false; token := "";
             script := [] |}, Returned (Some example_error)) /\
  log_lines (connect_events example_store example_file 1%nat
             ++ [Ev SysHealth (None, Some example_error)]) = [] /\
  vault_requests (connect_events example_store example_file 1%nat
                  ++ [Ev SysHealth (None, Some example_error)])
  `prefix_of` [SysHealth; login_request (Store.AppRole example_store)].
Proof.
  assert (H : run session 30 (Authenticate example_store)
                (example_unconnected
                   [AClient (Some 1%nat, None);
                    AHealth (None, Some example_error)])
              = Some (connect_events example_store example_file 1%nat
                      ++ [Ev SysHealth (None, Some example_error)],
                      {| client := Some 1%nat; sealed := false; token := "";
                         script := [] |}, Returned (Some example_error)))
    by reflexivity.
  split; [exact H|].
  exact (Authenticate_frame example_store Session session 30 _ _ _ _ H).
Defined.
